(** * MD1D: a shallow embedding of the one-particle velocity-Verlet simulator

    Sources embedded: [src/MD1D/particle.py] (class [Particle1D]),
    [src/MD1D/potentials.py] (the four [Potential] classes),
    [simulate_particle] of [src/MD1D/particle_sim.py], and the computations
    of [animate_particles] in [src/MD1D/visualization.py].

    The Python code computes with [float]s.  The embedding is written once,
    generically over an arithmetic interface [Arith], and used at two
    instances:
    - [R] (exact real arithmetic), where the algebraic properties are proved;
      it has no rounding, no overflow and no inf or nan, so a statement
      proved there says what the code computes when rounding is ignored;
    - [float] (Rocq's primitive IEEE-754 binary64 numbers, the numbers of
      Python's [float]), where concrete runs of the program are evaluated with
      [vm_compute] and the rounding of [time += dt] is reasoned about.

    Python's exceptions are modelled by an error monad ([exn + _]).  The
    Python [while time < duration] loop is run on a fuel counter: a run
    that exhausts its fuel ends in [OutOfFuel]; a run that never ends is one
    that is [OutOfFuel] for every fuel. *)

From Stdlib Require Import Reals Lra Lia List ZArith QArith Qround.
From Stdlib Require Import Floats.
Import ListNotations.
#[local] Set Warnings "-inexact-float".

(** ** Arithmetic interface: the operations the Python code applies to floats *)

Class Arith (A : Type) := {
  f0 : A;                       (* 0.0 *)
  fhalf : A;                    (* 0.5 *)
  f1 : A;                       (* 1.0, np.sign's positive result *)
  f2 : A;                       (* 2 / 2.0 *)
  f4 : A;                       (* 4.0 *)
  fpoint2 : A;                  (* 0.2 *)
  fadd : A -> A -> A;
  fsub : A -> A -> A;
  fmul : A -> A -> A;
  fdiv : A -> A -> A;
  fopp : A -> A;                (* unary minus *)
  fabs : A -> A;                (* abs *)
  fpow : A -> nat -> A;         (* x ** n, n a literal integer *)
  fpow_overflows : A -> nat -> bool;
                                (* Python's float x ** n raises OverflowError *)
  has_nonfinite : bool;         (* the numbers include inf and nan *)
  fltb : A -> A -> bool;        (* < *)
  fleb : A -> A -> bool;        (* <= *)
  feqb : A -> A -> bool         (* == *)
}.

(** The exceptions a run can end with: Python's [ZeroDivisionError] (a
    Python [float] divided by [0.0]) and [OverflowError] (a Python [float]
    power [x ** n] that overflows), and [NoExactValue], which is not a Python
    exception: it marks the point where numpy's [np.float64 / 0.0] returns
    inf or nan, values that exact real arithmetic does not have. *)
Inductive exn : Type := ZeroDivisionError | OverflowError | NoExactValue.

(** The error monad: [let* x := m in k] continues with the value of [m], or
    propagates its exception. *)
Notation "'let*' x ':=' m 'in' k" :=
  (match m with inl err => inl err | inr x => k end)
  (at level 200, x name, m at level 100, k at level 200).

(** The end of a fuel-bounded run. *)
Inductive outcome (T : Type) : Type :=
| Finished (v : T)
| Raised (e : exn)
| OutOfFuel.
Arguments Finished {T} v.
Arguments Raised {T} e.
Arguments OutOfFuel {T}.

Section Embedding.
Context {A : Type} `{Arith A}.

(** ** particle.py *)

(** [Particle1D]: the attributes of the Python object.  A number attribute
    holds either a Python [float] or a numpy [np.float64]; the flags
    [position_np], [velocity_np] and [acceleration_np] record which (true:
    [np.float64]).  Both types compute the same values, but an [np.float64]
    never raises: divided by [0.0] it gives inf or nan, and its powers give
    inf instead of raising [OverflowError].  [mass] is the caller's Python
    [float]. *)
Record Particle1D : Type := {
  position : A;
  velocity : A;
  mass : A;
  acceleration : A;
  position_np : bool;
  velocity_np : bool;
  acceleration_np : bool
}.

(** [Particle1D.__init__] with position and velocity supplied by the caller
    as Python floats (the random defaults, drawn by numpy, are not modelled:
    the caller passes the values).  There is no check on [mass]. *)
Definition mk_particle (position velocity mass : A) : Particle1D :=
  {| position := position; velocity := velocity; mass := mass;
     acceleration := f0;
     position_np := false; velocity_np := false; acceleration_np := false |}.

(** The particle with its [acceleration] attribute replaced. *)
Definition set_acceleration (p : Particle1D) (a : A) (a_np : bool) : Particle1D :=
  {| position := position p; velocity := velocity p; mass := mass p;
     acceleration := a;
     position_np := position_np p; velocity_np := velocity_np p;
     acceleration_np := a_np |}.

(** [apply_force]: [self.acceleration = force / self.mass], for a [force]
    given with its type ([snd force]: it is an [np.float64]).  A Python
    float divided by a zero mass raises [ZeroDivisionError]; an
    [np.float64] divided by zero gives inf or nan where the numbers have them
    (binary64) and has no value otherwise ([NoExactValue]).  The quotient has
    the force's type. *)
Definition apply_force (p : Particle1D) (force : A * bool) : exn + Particle1D :=
  if feqb (mass p) f0 then
    if snd force then
      if has_nonfinite then inr (set_acceleration p (fdiv (fst force) (mass p)) true)
      else inl NoExactValue
    else inl ZeroDivisionError
  else inr (set_acceleration p (fdiv (fst force) (mass p)) (snd force)).

(** [update_position]: [self.position += self.velocity * dt]; the sum is an
    [np.float64] when one of its operands is. *)
Definition update_position (p : Particle1D) (dt : A) : Particle1D :=
  {| position := fadd (position p) (fmul (velocity p) dt);
     velocity := velocity p; mass := mass p; acceleration := acceleration p;
     position_np := position_np p || velocity_np p;
     velocity_np := velocity_np p; acceleration_np := acceleration_np p |}.

(** [update_velocity]: [self.velocity += self.acceleration * dt]. *)
Definition update_velocity (p : Particle1D) (dt : A) : Particle1D :=
  {| position := position p;
     velocity := fadd (velocity p) (fmul (acceleration p) dt);
     mass := mass p; acceleration := acceleration p;
     position_np := position_np p;
     velocity_np := velocity_np p || acceleration_np p;
     acceleration_np := acceleration_np p |}.

(** ** potentials.py *)

(** The four subclasses of [Potential] with their attributes (Python
    floats).  [BoxPotential] stores [half_width = width / 2.0], computed by
    its constructor. *)
Inductive Potential : Type :=
| NoPotential
| HarmonicPotential (k center : A)
| QuarticPotential (a center : A)
| BoxPotential (width center wall_stiffness half_width : A).

(** [BoxPotential.__init__]: no check on [width] or [wall_stiffness]. *)
Definition mk_BoxPotential (width center wall_stiffness : A) : Potential :=
  BoxPotential width center wall_stiffness (fdiv width f2).

(** [np.sign] on a float: 1.0, -1.0, or the argument itself (0.0, -0.0, nan). *)
Definition np_sign (x : A) : A :=
  if fltb f0 x then f1 else if fltb x f0 then fopp f1 else x.

(** [Potential.__call__]: the value of the potential energy at [x]. *)
Definition potential_call (pot : Potential) (x : A) : A :=
  match pot with
  | NoPotential => f0
  | HarmonicPotential k center =>
      let dx := fsub x center in fmul (fmul fhalf k) (fpow dx 2)
  | QuarticPotential a center =>
      let dx := fsub x center in fmul a (fpow dx 4)
  | BoxPotential _ center wall_stiffness half_width =>
      let dx := fabs (fsub x center) in
      if fleb dx half_width then f0
      else let overshoot := fsub dx half_width in
           fmul (fmul fhalf wall_stiffness) (fpow overshoot 2)
  end.

(** [Potential.force]: the value of the force at [x]. *)
Definition potential_force (pot : Potential) (x : A) : A :=
  match pot with
  | NoPotential => f0
  | HarmonicPotential k center => fmul (fopp k) (fsub x center)
  | QuarticPotential a center =>
      let dx := fsub x center in fmul (fmul (fopp f4) a) (fpow dx 3)
  | BoxPotential _ center wall_stiffness half_width =>
      let dx := fsub x center in
      if fleb (fabs dx) half_width then f0
      else let sign := np_sign dx in
           let overshoot := fsub (fabs dx) half_width in
           fmul (fmul (fopp sign) wall_stiffness) overshoot
  end.

(** [y ** n] raises [OverflowError] when [y] is a Python float ([y_np]
    false) whose power overflows; a power of an [np.float64] never raises. *)
Definition pow_raises (y : A) (y_np : bool) (n : nat) : bool :=
  fpow_overflows y n && negb y_np.

(** A [**] of [Potential.__call__] at [x] raises ([x_np]: [x] is an
    [np.float64], and so are [dx] and [overshoot]). *)
Definition potential_call_raises (pot : Potential) (x : A) (x_np : bool) : bool :=
  match pot with
  | NoPotential => false
  | HarmonicPotential _ center => pow_raises (fsub x center) x_np 2
  | QuarticPotential _ center => pow_raises (fsub x center) x_np 4
  | BoxPotential _ center _ half_width =>
      let dx := fabs (fsub x center) in
      if fleb dx half_width then false
      else pow_raises (fsub dx half_width) x_np 2
  end.

(** The [dx**3] of [QuarticPotential.force] raises. *)
Definition potential_force_raises (pot : Potential) (x : A) (x_np : bool) : bool :=
  match pot with
  | QuarticPotential _ center => pow_raises (fsub x center) x_np 3
  | _ => false
  end.

(** The type of [Potential.force]'s result: the literal [0.0] is a Python
    float; the box's wall force is an [np.float64] (a product with
    [np.sign(dx)]); the harmonic and quartic forces have the type of [x]. *)
Definition force_is_np (pot : Potential) (x : A) (x_np : bool) : bool :=
  match pot with
  | NoPotential => false
  | HarmonicPotential _ _ | QuarticPotential _ _ => x_np
  | BoxPotential _ center _ half_width =>
      negb (fleb (fabs (fsub x center)) half_width)
  end.

(** The Python calls [potential(x)] and [potential.force(x)]. *)
Definition call_py (pot : Potential) (x : A) (x_np : bool) : exn + A :=
  if potential_call_raises pot x x_np then inl OverflowError
  else inr (potential_call pot x).

Definition force_py (pot : Potential) (x : A) (x_np : bool) : exn + (A * bool) :=
  if potential_force_raises pot x x_np then inl OverflowError
  else inr (potential_force pot x, force_is_np pot x x_np).

(** ** particle_sim.py: [simulate_particle] *)

(** The local state of [simulate_particle]: the particle object it mutates,
    [time], and the six Python lists it appends to. *)
Record LoopState : Type := {
  particle : Particle1D;
  time : A;
  times : list A;
  positions : list A;
  velocities : list A;
  ke : list A;
  pe : list A;
  total_e : list A
}.

(** The value of [0.5 * particle.mass * particle.velocity**2], and the
    expression as Python evaluates it. *)
Definition kinetic (p : Particle1D) : A :=
  fmul (fmul fhalf (mass p)) (fpow (velocity p) 2).

Definition kinetic_raises (p : Particle1D) : bool :=
  pow_raises (velocity p) (velocity_np p) 2.

Definition kinetic_py (p : Particle1D) : exn + A :=
  if kinetic_raises p then inl OverflowError else inr (kinetic p).

(** The statements before the loop: [ke = [...]], then [pe = [...]]. *)
Definition init_state (p : Particle1D) (pot : Potential) : exn + LoopState :=
  let* ke0 := kinetic_py p in
  let* pe0 := call_py pot (position p) (position_np p) in
  inr {| particle := p; time := f0; times := [f0];
         positions := [position p]; velocities := [velocity p];
         ke := [ke0]; pe := [pe0]; total_e := [fadd ke0 pe0] |}.

(** The state [init_state] builds when nothing raises, and the condition
    under which it raises. *)
Definition first_sample (p : Particle1D) (pot : Potential) : LoopState :=
  let ke0 := kinetic p in
  let pe0 := potential_call pot (position p) in
  {| particle := p; time := f0; times := [f0];
     positions := [position p]; velocities := [velocity p];
     ke := [ke0]; pe := [pe0]; total_e := [fadd ke0 pe0] |}.

Definition init_overflows (p : Particle1D) (pot : Potential) : bool :=
  kinetic_raises p || potential_call_raises pot (position p) (position_np p).

(** One iteration of the loop body, statement by statement.  [ke[-1] +
    pe[-1]] are the two values appended just before. *)
Definition loop_body (pot : Potential) (dt : A) (s : LoopState)
  : exn + LoopState :=
  let p := particle s in
  let* force := force_py pot (position p) (position_np p) in
  let* p1 := apply_force p force in
  let p2 := update_velocity p1 (fdiv dt f2) in
  let p3 := update_position p2 dt in
  let* force' := force_py pot (position p3) (position_np p3) in
  let* p4 := apply_force p3 force' in
  let p5 := update_velocity p4 (fdiv dt f2) in
  let t := fadd (time s) dt in
  let* k := kinetic_py p5 in
  let* u := call_py pot (position p5) (position_np p5) in
  inr {| particle := p5; time := t;
         times := times s ++ [t];
         positions := positions s ++ [position p5];
         velocities := velocities s ++ [velocity p5];
         ke := ke s ++ [k]; pe := pe s ++ [u];
         total_e := total_e s ++ [fadd k u] |}.

(** [while time < duration: ...] with at most [fuel] tests of the condition. *)
Fixpoint while_loop (fuel : nat) (pot : Potential) (duration dt : A)
    (s : LoopState) : outcome LoopState :=
  match fuel with
  | O => OutOfFuel
  | S fuel' =>
    if fltb (time s) duration then
      match loop_body pot dt s with
      | inl e => Raised e
      | inr s' => while_loop fuel' pot duration dt s'
      end
    else Finished s
  end.

(** The energy dictionary and the returned tuple. *)
Record Energies : Type := { kinetic_e : list A; potential_e : list A; total : list A }.
Record Trajectory : Type := {
  tr_times : list A; tr_positions : list A; tr_velocities : list A;
  energies : Energies
}.

Definition trajectory_of (s : LoopState) : Trajectory :=
  {| tr_times := times s; tr_positions := positions s;
     tr_velocities := velocities s;
     energies := {| kinetic_e := ke s; potential_e := pe s; total := total_e s |} |}.

(** [simulate_particle particle potential duration dt]: the returned tuple,
    together with the caller's particle object as the run leaves it. *)
Definition simulate_particle (fuel : nat) (p : Particle1D) (pot : Potential)
    (duration dt : A) : outcome (Particle1D * Trajectory) :=
  match init_state p pot with
  | inl e => Raised e
  | inr s0 =>
    match while_loop fuel pot duration dt s0 with
    | Finished s => Finished (particle s, trajectory_of s)
    | Raised e => Raised e
    | OutOfFuel => OutOfFuel
    end
  end.

(** The run never ends, whatever the fuel. *)
Definition diverges (p : Particle1D) (pot : Potential) (duration dt : A) : Prop :=
  forall fuel, simulate_particle fuel p pot duration dt = OutOfFuel.

End Embedding.

(** ** The two arithmetic instances *)

(** Exact real arithmetic: no power overflows and there is no inf or nan. *)
#[export] Instance R_arith : Arith R := {
  f0 := 0%R; fhalf := 0.5%R; f1 := 1%R; f2 := 2%R; f4 := 4%R;
  fpoint2 := 0.2%R;
  fadd := Rplus; fsub := Rminus; fmul := Rmult; fdiv := Rdiv;
  fopp := Ropp; fabs := Rabs; fpow := pow;
  fpow_overflows := fun _ _ => false;
  has_nonfinite := false;
  fltb := fun x y => if Rlt_dec x y then true else false;
  fleb := fun x y => if Rle_dec x y then true else false;
  feqb := fun x y => if Req_dec_T x y then true else false
}.

(** IEEE-754 binary64, Python's [float].  [x ** n] for a literal integer
    [n >= 1] is C's [pow(x, n)] (CPython returns the nan, infinite and zero
    cases itself, with the values below); it is modelled as the exact power
    [m^n * 2^(e n)] of [x = m * 2^e] rounded once to nearest-even, which is
    what a correctly rounded [pow] returns (glibc's [pow] is documented
    within one ulp of it).  [x ** 0] is [1.0]. *)
Definition float_pow (x : float) (n : nat) : float :=
  match n with
  | O => 1%float
  | S _ =>
    match Prim2SF x with
    | S754_zero s => if s && Nat.odd n then PrimFloat.neg_zero else PrimFloat.zero
    | S754_infinity s => if s && Nat.odd n then PrimFloat.neg_infinity else PrimFloat.infinity
    | S754_nan => PrimFloat.nan
    | S754_finite s m e =>
        SF2Prim (binary_round prec emax (s && Nat.odd n)
                   (Pos.pow m (Pos.of_nat n)) (e * Z.of_nat n))
    end
  end.

(** CPython's [float ** int] raises [OverflowError] exactly when a finite
    base has an infinite power. *)
#[export] Instance float_arith : Arith float := {
  f0 := 0%float; fhalf := 0.5%float; f1 := 1%float; f2 := 2%float;
  f4 := 4%float; fpoint2 := 0.2%float;
  fadd := PrimFloat.add; fsub := PrimFloat.sub; fmul := PrimFloat.mul;
  fdiv := PrimFloat.div; fopp := PrimFloat.opp; fabs := PrimFloat.abs;
  fpow := float_pow;
  fpow_overflows := fun x n => is_finite x && is_infinity (float_pow x n);
  has_nonfinite := true;
  fltb := PrimFloat.ltb; fleb := PrimFloat.leb; feqb := PrimFloat.eqb
}.

(** The exact rational value of a finite binary64 number (0 for the
    infinities and nan): [m * 2^e]. *)
Definition f2Q (x : float) : Q :=
  match Prim2SF x with
  | S754_finite s m e =>
      let q := match e with
               | Z0 => inject_Z (Zpos m)
               | Zpos e' => inject_Z (Zpos m * Zpos (Pos.pow 2 e'))
               | Zneg e' => Qmake (Zpos m) (Pos.pow 2 e')
               end in
      if s then Qopp q else q
  | _ => 0%Q
  end.

(** The binary64 number of value [m], for an integer [1 <= m < 2^53]: the
    mantissa [m] shifted left to 53 binary digits, with the matching
    exponent [size m - 53]. *)
Definition sf_int (m : positive) : spec_float :=
  S754_finite false (Nat.iter (53 - Pos.to_nat (Pos.size m))%nat xO m)
    (Zpos (Pos.size m) - 53)%Z.

(** The values [time] takes in a run with [dt = 1.0]: [0.0], an integer
    below [2^53], or [2^53]. *)
Definition stall_time_ok (t : float) : Prop :=
  t = 0%float \/ (exists k, (Zpos k < 2 ^ 53)%Z /\ Prim2SF t = sf_int k) \/
  t = 9007199254740992%float.

(** [ceil] on the reals: [up x] is the integer in [(x, x + 1]]. *)
Definition Rceil (x : R) : Z := (1 - up (- x))%Z.

(** The value of a finished run, [d] otherwise. *)
Definition finished_or {T : Type} (d : T) (o : outcome T) : T :=
  match o with Finished v => v | _ => d end.

(** A concrete exact-arithmetic run used by the witnesses: a particle
    at 1 with velocity 1/2 and mass 1 in the harmonic field k = 1 centered at
    0, [duration = 1], [dt = 1/2] (two iterations, three samples). *)
Definition run_harmonic : @Particle1D R * @Trajectory R :=
  finished_or (mk_particle 0%R 0%R 1%R,
               trajectory_of (first_sample (mk_particle 0%R 0%R 1%R) NoPotential))
    (simulate_particle 3 (mk_particle 1%R (1/2)%R 1%R)
       (HarmonicPotential 1%R 0%R) 1%R (1/2)%R).

Definition run_free : @Particle1D R * @Trajectory R :=
  finished_or (mk_particle 0%R 0%R 1%R,
               trajectory_of (first_sample (mk_particle 0%R 0%R 1%R) NoPotential))
    (simulate_particle 3 (mk_particle 1%R (1/2)%R 1%R) NoPotential 1%R (1/2)%R).

(** A binary64 run used by the witnesses of the statements that hold in
    every arithmetic: a particle at 0.1 with velocity 0.3 and mass 1 in the
    harmonic field k = 1 centered at 0, [duration = 1.0], [dt = 0.1]. *)
Definition run_float : @Particle1D float * @Trajectory float :=
  finished_or (mk_particle 0%float 0%float 1%float,
               trajectory_of (first_sample (mk_particle 0%float 0%float 1%float) NoPotential))
    (simulate_particle 20 (mk_particle 0.1%float 0.3%float 1%float)
       (HarmonicPotential 1%float 0%float) 1%float 0.1%float).

(** An exact run of a particle at rest at the center of the harmonic field. *)
Definition run_rest : @Particle1D R * @Trajectory R :=
  finished_or (mk_particle 0%R 0%R 1%R,
               trajectory_of (first_sample (mk_particle 0%R 0%R 1%R) NoPotential))
    (simulate_particle 3 (mk_particle 0%R 0%R 1%R)
       (HarmonicPotential 1%R 0%R) 1%R (1/2)%R).

(** One exact iteration from the initial state of [run_harmonic]'s particle,
    and the state with the reached position and the reversed velocity. *)
Definition rev_s0 : @LoopState R :=
  first_sample (mk_particle 1%R (1/2)%R 1%R) (HarmonicPotential 1%R 0%R).

Definition rev_s1 : @LoopState R :=
  match loop_body (HarmonicPotential 1%R 0%R) (1/2)%R rev_s0 with
  | inr s => s
  | inl _ => rev_s0
  end.

Definition rev_s2 : @LoopState R :=
  first_sample (mk_particle (position (particle rev_s1))
                            (- velocity (particle rev_s1))%R 1%R)
               (HarmonicPotential 1%R 0%R).

(** ** Mirror images about a center (exact arithmetic) *)

Section MirrorDefs.
Local Open Scope R_scope.

(** The potential is [NoPotential] or is centered at [c]. *)
Definition pot_centered (pot : @Potential R) (c : R) : Prop :=
  match pot with
  | NoPotential => True
  | HarmonicPotential _ c' | QuarticPotential _ c' | BoxPotential _ c' _ _ => c' = c
  end.

(** The particle reflected about [c]: position [2 c - x], velocity and
    acceleration negated, the types of the attributes kept. *)
Definition reflect_particle (c : R) (p : @Particle1D R) : @Particle1D R :=
  {| position := 2 * c - position p; velocity := - velocity p;
     mass := mass p; acceleration := - acceleration p;
     position_np := position_np p; velocity_np := velocity_np p;
     acceleration_np := acceleration_np p |}.

Definition reflect_state (c : R) (s : @LoopState R) : @LoopState R :=
  {| particle := reflect_particle c (particle s); time := time s;
     times := times s;
     positions := map (fun x => 2 * c - x) (positions s);
     velocities := map Ropp (velocities s);
     ke := ke s; pe := pe s; total_e := total_e s |}.

Definition reflect_trajectory (c : R) (tr : @Trajectory R) : @Trajectory R :=
  {| tr_times := tr_times tr;
     tr_positions := map (fun x => 2 * c - x) (tr_positions tr);
     tr_velocities := map Ropp (tr_velocities tr);
     energies := energies tr |}.

(** The field parameters that make the potential energy nonnegative. *)
Definition pot_nonneg (pot : @Potential R) : Prop :=
  match pot with
  | NoPotential => True
  | HarmonicPotential k _ => 0 <= k
  | QuarticPotential a _ => 0 <= a
  | BoxPotential _ _ wall_stiffness _ => 0 <= wall_stiffness
  end.

End MirrorDefs.

(** ** visualization.py: the computations of [animate_particles]

    The plotting calls themselves are not modelled; these are the values
    [animate_particles] computes and passes to them. *)

Section Visualization.
Context {A : Type} `{Arith A}.

(** [np.minimum] and [np.maximum] of two floats: a nan operand is returned
    (nan tests unequal to itself). *)
Definition np_minimum (a b : A) : A :=
  if negb (feqb a a) then a else if negb (feqb b b) then b
  else if fleb a b then a else b.

Definition np_maximum (a b : A) : A :=
  if negb (feqb a a) then a else if negb (feqb b b) then b
  else if fleb b a then a else b.

(** [positions.min()] and [positions.max()], the reductions of [np.minimum]
    and [np.maximum]; numpy raises [ValueError] on an empty array ([None]). *)
Definition np_min (l : list A) : option A :=
  match l with [] => None | x :: t => Some (fold_left np_minimum t x) end.

Definition np_max (l : list A) : option A :=
  match l with [] => None | x :: t => Some (fold_left np_maximum t x) end.

(** [x_min, x_max]: the range of both axes, [pos_min - margin] to
    [pos_max + margin] with [margin = (pos_max - pos_min) * 0.2]. *)
Definition plot_range (positions : list A) : option (A * A) :=
  match np_min positions, np_max positions with
  | Some pos_min, Some pos_max =>
      let margin := fmul (fsub pos_max pos_min) fpoint2 in
      Some (fsub pos_min margin, fadd pos_max margin)
  | _, _ => None
  end.

End Visualization.

(** [frames=range(0, len(times), 5)]: [0, 5, 10, ...] below [n]. *)
Definition frames (n : nat) : list nat :=
  map (fun j => 5 * j)%nat (seq 0 ((n + 4) / 5)).

(** [l[a:b]] for [0 <= a], [0 <= b]: clipped to the list, empty when
    [b <= a]. *)
Definition py_slice {T : Type} (l : list T) (a b : nat) : list T :=
  firstn (b - a) (skipn a l).

(** [update(frame)]'s trail: [trail_start = max(0, frame - 100)], and the two
    arrays passed to [trail_line.set_data]:
    [positions[trail_start: frame+1]] and [np.zeros(frame - trail_start + 1)]. *)
Definition trail_data (positions : list R) (frame : nat) : list R * list R :=
  let trail_start := Z.max 0 (Z.of_nat frame - 100) in
  (py_slice positions (Z.to_nat trail_start) (frame + 1),
   repeat 0%R (Z.to_nat (Z.of_nat frame - trail_start + 1))).

(** ** Generic facts about the loop (any arithmetic) *)

Section Generic.
Context {A : Type} `{Arith A}.

(** What the loop keeps true: the mass is the caller's, the six lists have
    one entry per recorded sample, and their last entries are the particle's
    current state and [time]. *)
Definition loop_inv (m : A) (s : @LoopState A) : Prop :=
  mass (particle s) = m /\
  times s <> [] /\
  length (positions s) = length (times s) /\
  length (velocities s) = length (times s) /\
  length (ke s) = length (times s) /\
  length (pe s) = length (times s) /\
  length (total_e s) = length (times s) /\
  last (times s) f0 = time s /\
  last (positions s) f0 = position (particle s) /\
  last (velocities s) f0 = velocity (particle s).

Lemma apply_force_mass (p q : @Particle1D A) (F : A * bool) :
  apply_force p F = inr q ->
  mass q = mass p /\ position q = position p /\ velocity q = velocity p /\
  acceleration q = fdiv (fst F) (mass p).
Proof.
  unfold apply_force.
  destruct (feqb (mass p) f0), (snd F), has_nonfinite; intro E;
    inversion E; subst; simpl; auto.
Qed.

Lemma apply_force_raises (p : @Particle1D A) (F : A * bool) (e : exn) :
  apply_force p F = inl e -> feqb (mass p) f0 = true.
Proof. unfold apply_force. destruct (feqb (mass p) f0); congruence. Qed.

Lemma apply_force_ok (p : @Particle1D A) (F : A * bool) :
  feqb (mass p) f0 = false ->
  apply_force p F = inr (set_acceleration p (fdiv (fst F) (mass p)) (snd F)).
Proof. unfold apply_force. intros ->. reflexivity. Qed.

(** Where no power overflows (exact arithmetic), the Python calls of the
    potential and the kinetic energy return their values. *)
Section NoOverflow.
Hypothesis no_overflow : forall (y : A) n, fpow_overflows y n = false.

Lemma pow_raises_false (y : A) (b : bool) (n : nat) : pow_raises y b n = false.
Proof. unfold pow_raises. rewrite no_overflow. reflexivity. Qed.

Lemma call_py_total (pot : Potential) (x : A) (b : bool) :
  call_py pot x b = inr (potential_call pot x).
Proof.
  unfold call_py, potential_call_raises.
  destruct pot; rewrite ?pow_raises_false; try reflexivity.
  destruct (fleb _ _); rewrite ?pow_raises_false; reflexivity.
Qed.

Lemma force_py_total (pot : Potential) (x : A) (b : bool) :
  force_py pot x b = inr (potential_force pot x, force_is_np pot x b).
Proof.
  unfold force_py, potential_force_raises.
  destruct pot; rewrite ?pow_raises_false; reflexivity.
Qed.

Lemma kinetic_py_total (p : Particle1D) : kinetic_py p = inr (kinetic p).
Proof. unfold kinetic_py, kinetic_raises. rewrite pow_raises_false. reflexivity. Qed.

Lemma init_state_total (p : Particle1D) (pot : Potential) :
  init_state p pot = inr (first_sample p pot).
Proof. unfold init_state. rewrite kinetic_py_total, call_py_total. reflexivity. Qed.

Lemma init_overflows_false (p : Particle1D) (pot : Potential) :
  init_overflows p pot = false.
Proof.
  unfold init_overflows, kinetic_raises, potential_call_raises.
  destruct pot; rewrite ?pow_raises_false; try reflexivity.
  match goal with |- context [fleb ?a ?b] => destruct (fleb a b) end;
    rewrite ?pow_raises_false; reflexivity.
Qed.

Lemma loop_body_no_overflow (pot : Potential) (dt : A) (s : LoopState) :
  loop_body pot dt s =
  let p := particle s in
  match apply_force p (potential_force pot (position p),
                       force_is_np pot (position p) (position_np p)) with
  | inl e => inl e
  | inr p1 =>
    let p3 := update_position (update_velocity p1 (fdiv dt f2)) dt in
    match apply_force p3 (potential_force pot (position p3),
                          force_is_np pot (position p3) (position_np p3)) with
    | inl e => inl e
    | inr p4 =>
      let p5 := update_velocity p4 (fdiv dt f2) in
      let t := fadd (time s) dt in
      inr {| particle := p5; time := t;
             times := times s ++ [t];
             positions := positions s ++ [position p5];
             velocities := velocities s ++ [velocity p5];
             ke := ke s ++ [kinetic p5];
             pe := pe s ++ [potential_call pot (position p5)];
             total_e := total_e s ++
               [fadd (kinetic p5) (potential_call pot (position p5))] |}
    end
  end.
Proof.
  unfold loop_body. rewrite force_py_total. cbv beta iota zeta.
  lazymatch goal with
  | |- context [apply_force (particle s) ?F] =>
      destruct (apply_force (particle s) F) as [e|p1]; [reflexivity|]
  end.
  rewrite force_py_total. cbv beta iota zeta.
  lazymatch goal with
  | |- context [apply_force ?q ?F] => destruct (apply_force q F) as [e|p4]; [reflexivity|]
  end.
  rewrite kinetic_py_total, call_py_total. reflexivity.
Qed.

End NoOverflow.

Lemma call_py_ok (pot : Potential) (x : A) (b : bool) (u : A) :
  call_py pot x b = inr u -> u = potential_call pot x.
Proof. unfold call_py. destruct (potential_call_raises pot x b); congruence. Qed.

Lemma force_py_ok (pot : Potential) (x : A) (b : bool) (F : A * bool) :
  force_py pot x b = inr F -> F = (potential_force pot x, force_is_np pot x b).
Proof. unfold force_py. destruct (potential_force_raises pot x b); congruence. Qed.

Lemma kinetic_py_ok (p : Particle1D) (k : A) :
  kinetic_py p = inr k -> k = kinetic p.
Proof. unfold kinetic_py. destruct (kinetic_raises p); congruence. Qed.

(** [init_state] raises [OverflowError] exactly when [init_overflows], and
    builds [first_sample] otherwise. *)
Lemma init_state_eq (p : Particle1D) (pot : Potential) :
  init_state p pot =
  if init_overflows p pot then inl OverflowError else inr (first_sample p pot).
Proof.
  unfold init_state, init_overflows, kinetic_py, call_py.
  destruct (kinetic_raises p); [reflexivity|].
  destruct (potential_call_raises pot (position p) (position_np p)); reflexivity.
Qed.

Lemma init_state_ok (p : Particle1D) (pot : Potential) (s0 : LoopState) :
  init_state p pot = inr s0 -> s0 = first_sample p pot.
Proof.
  rewrite init_state_eq. destruct (init_overflows p pot); congruence.
Qed.

(** Destructs the [let*] steps of a computation [m = inr v] in the goal
    [m = inr v -> _], keeping the equation of each step. *)
Ltac inr_steps :=
  repeat match goal with
  | |- (match ?m with inl _ => _ | inr _ => _ end) = inr _ -> _ =>
      let E := fresh "E" in
      destruct m eqn:E; [intro; discriminate|]
  end.

(** A successful iteration, statement by statement: the two [apply_force]
    calls succeed on the forces at the two positions, and the new state
    records the particle after the second half kick. *)
Lemma loop_body_spec (pot : Potential) (dt : A) (s s' : LoopState) :
  loop_body pot dt s = inr s' ->
  exists p1 p4,
  let p := particle s in
  apply_force p (potential_force pot (position p),
                 force_is_np pot (position p) (position_np p)) = inr p1 /\
  let p3 := update_position (update_velocity p1 (fdiv dt f2)) dt in
  apply_force p3 (potential_force pot (position p3),
                  force_is_np pot (position p3) (position_np p3)) = inr p4 /\
  let p5 := update_velocity p4 (fdiv dt f2) in
  let t := fadd (time s) dt in
  s' = {| particle := p5; time := t;
          times := times s ++ [t];
          positions := positions s ++ [position p5];
          velocities := velocities s ++ [velocity p5];
          ke := ke s ++ [kinetic p5];
          pe := pe s ++ [potential_call pot (position p5)];
          total_e := total_e s ++
            [fadd (kinetic p5) (potential_call pot (position p5))] |}.
Proof.
  unfold loop_body. inr_steps.
  intro B. injection B as <-.
  apply force_py_ok in E, E1. apply kinetic_py_ok in E3. apply call_py_ok in E4.
  subst. eexists _, _. split; [exact E0|]. split; [exact E2|]. reflexivity.
Qed.

(** The loop body appends exactly one sample to each list. *)
Lemma loop_body_shape (pot : Potential) (dt : A) (s s' : LoopState) :
  loop_body pot dt s = inr s' ->
  mass (particle s') = mass (particle s) /\
  time s' = fadd (time s) dt /\
  times s' = times s ++ [time s'] /\
  positions s' = positions s ++ [position (particle s')] /\
  velocities s' = velocities s ++ [velocity (particle s')] /\
  (exists k, ke s' = ke s ++ [k]) /\
  (exists u, pe s' = pe s ++ [u]) /\
  (exists w, total_e s' = total_e s ++ [w]).
Proof.
  intro B. destruct (loop_body_spec _ _ _ _ B) as (p1 & p4 & E1 & E4 & ->).
  apply apply_force_mass in E1. apply apply_force_mass in E4.
  simpl in E4. destruct E1 as [M1 _]. destruct E4 as [M4 _].
  simpl. repeat split; try (eexists; reflexivity).
  congruence.
Qed.

(** Without overflow, the loop body raises only on a zero mass. *)
Lemma loop_body_raises (pot : Potential) (dt : A) (s : LoopState) (e : exn) :
  (forall (y : A) n, fpow_overflows y n = false) ->
  loop_body pot dt s = inl e -> feqb (mass (particle s)) f0 = true.
Proof.
  intros NO. unfold loop_body.
  rewrite force_py_total by exact NO.
  destruct (apply_force (particle s) _) as [e1|p1] eqn:E1.
  - intros _. exact (apply_force_raises _ _ _ E1).
  - rewrite force_py_total by exact NO.
    lazymatch goal with
    | |- context [apply_force ?q ?F] =>
        destruct (apply_force q F) as [e4|p4] eqn:E4
    end.
    + intros _. apply apply_force_raises in E4.
      apply apply_force_mass in E1. destruct E1 as [M1 _].
      simpl in E4. congruence.
    + rewrite kinetic_py_total, call_py_total by exact NO. discriminate.
Qed.

Lemma loop_body_ok (pot : Potential) (dt : A) (s : LoopState) :
  (forall (y : A) n, fpow_overflows y n = false) ->
  feqb (mass (particle s)) f0 = false -> exists s', loop_body pot dt s = inr s'.
Proof.
  intros NO Hm. destruct (loop_body pot dt s) as [e|s'] eqn:E.
  - apply loop_body_raises in E; [congruence|exact NO].
  - eauto.
Qed.

Lemma last_snoc (l : list A) (a d : A) : last (l ++ [a]) d = a.
Proof.
  induction l as [|x l IH]; [reflexivity|].
  simpl. rewrite IH. destruct (l ++ [a]) eqn:E; [|reflexivity].
  destruct l; discriminate.
Qed.

Lemma init_inv (p : Particle1D) (pot : Potential) :
  loop_inv (mass p) (first_sample p pot).
Proof. unfold loop_inv; simpl; repeat split; congruence. Qed.

Lemma loop_body_inv (m : A) (pot : Potential) (dt : A) (s s' : LoopState) :
  loop_inv m s -> loop_body pot dt s = inr s' -> loop_inv m s'.
Proof.
  intros (Hm & Hne & L1 & L2 & L3 & L4 & L5 & T & P & V) E.
  destruct (loop_body_shape _ _ _ _ E)
    as (M & Tm & Ts & Ps & Vs & [k K] & [u U] & [w W]).
  unfold loop_inv.
  rewrite Ts, Ps, Vs, K, U, W, !length_app, !last_snoc. simpl.
  repeat split; try congruence.
  destruct (times s); discriminate.
Qed.

Lemma while_loop_inv (m : A) (fuel : nat) (pot : Potential) (duration dt : A)
    (s s' : LoopState) :
  loop_inv m s -> while_loop fuel pot duration dt s = Finished s' ->
  loop_inv m s'.
Proof.
  revert s. induction fuel as [|fuel IH]; intros s Hs; simpl; [discriminate|].
  destruct (fltb (time s) duration).
  - destruct (loop_body pot dt s) as [e|s1] eqn:E; [discriminate|].
    apply IH. exact (loop_body_inv _ _ _ _ _ Hs E).
  - intro F; inversion F; subst. exact Hs.
Qed.

(** A returned run starts from [first_sample]. *)
Lemma simulate_finished (fuel : nat) (p : Particle1D) (pot : Potential)
    (duration dt : A) (r : Particle1D * Trajectory) :
  simulate_particle fuel p pot duration dt = Finished r ->
  exists s, while_loop fuel pot duration dt (first_sample p pot) = Finished s /\
            r = (particle s, trajectory_of s).
Proof.
  unfold simulate_particle.
  destruct (init_state p pot) as [e|s0] eqn:E0; [discriminate|].
  apply init_state_ok in E0. subst s0.
  destruct (while_loop fuel pot duration dt (first_sample p pot)) as [s| |];
    try discriminate.
  intro F; inversion F; subst. eauto.
Qed.

(** A returned run satisfies the loop invariant from the caller's mass. *)
Lemma simulate_inv (fuel : nat) (p : Particle1D) (pot : Potential)
    (duration dt : A) (p' : Particle1D) (tr : Trajectory) :
  simulate_particle fuel p pot duration dt = Finished (p', tr) ->
  exists s, loop_inv (mass p) s /\ p' = particle s /\ tr = trajectory_of s.
Proof.
  intro E. destruct (simulate_finished _ _ _ _ _ _ E) as (s & W & R).
  injection R as -> ->. exists s. split; [|auto].
  exact (while_loop_inv _ _ _ _ _ _ _ (init_inv p pot) W).
Qed.

(** The six returned sequences have one common length. *)
Lemma simulate_lengths (fuel : nat) (p : Particle1D) (pot : Potential)
    (duration dt : A) (p' : Particle1D) (tr : Trajectory) :
  simulate_particle fuel p pot duration dt = Finished (p', tr) ->
  let n := length (tr_times tr) in
  length (tr_positions tr) = n /\ length (tr_velocities tr) = n /\
  length (kinetic_e (energies tr)) = n /\
  length (potential_e (energies tr)) = n /\
  length (total (energies tr)) = n.
Proof.
  intro E. destruct (simulate_inv _ _ _ _ _ _ _ E) as (s & I & _ & ->).
  destruct I as (_ & _ & L1 & L2 & L3 & L4 & L5 & _). simpl. auto.
Qed.

(** The loop establishes every property that holds initially and that an
    iteration entered with [time < duration] preserves; on exit the loop
    condition is false. *)
Lemma while_loop_invariant (P : LoopState -> Prop) (fuel : nat)
    (pot : Potential) (duration dt : A) (s s' : LoopState) :
  (forall s1 s2, P s1 -> fltb (time s1) duration = true ->
     loop_body pot dt s1 = inr s2 -> P s2) ->
  P s -> while_loop fuel pot duration dt s = Finished s' ->
  P s' /\ fltb (time s') duration = false.
Proof.
  intros Step. revert s. induction fuel as [|fuel IH]; intros s Hs; simpl;
    [discriminate|].
  destruct (fltb (time s) duration) eqn:C.
  - destruct (loop_body pot dt s) as [e|s1] eqn:E; [discriminate|].
    apply IH. exact (Step _ _ Hs C E).
  - intro F; inversion F; subst. auto.
Qed.

Lemma simulate_invariant (P : LoopState -> Prop) (fuel : nat)
    (p : Particle1D) (pot : Potential) (duration dt : A)
    (p' : Particle1D) (tr : Trajectory) :
  (forall s1 s2, P s1 -> loop_inv (mass p) s1 ->
     fltb (time s1) duration = true -> loop_body pot dt s1 = inr s2 -> P s2) ->
  P (first_sample p pot) ->
  simulate_particle fuel p pot duration dt = Finished (p', tr) ->
  exists s, P s /\ loop_inv (mass p) s /\ fltb (time s) duration = false /\
            p' = particle s /\ tr = trajectory_of s.
Proof.
  intros Step H0 E.
  destruct (simulate_finished _ _ _ _ _ _ E) as (s & W & R).
  injection R as -> ->.
  destruct (while_loop_invariant (fun s => P s /\ loop_inv (mass p) s)
              _ _ _ _ _ _ ltac:(intros s1 s2 [H1 I1] C B;
                                 split; [exact (Step _ _ H1 I1 C B)
                                        |exact (loop_body_inv _ _ _ _ _ I1 B)])
              (conj H0 (init_inv p pot)) W) as [[HP HI] HC].
  exists s. auto.
Qed.

(** One iteration is the kick-drift-kick step, with the operations in the
    order of the Python code. *)
Lemma loop_body_kdk (pot : Potential) (dt : A) (s s' : LoopState) :
  loop_body pot dt s = inr s' ->
  let p := particle s in
  let m := mass p in
  let v_half :=
    fadd (velocity p) (fmul (fdiv (potential_force pot (position p)) m) (fdiv dt f2)) in
  let x' := fadd (position p) (fmul v_half dt) in
  time s' = fadd (time s) dt /\
  position (particle s') = x' /\
  velocity (particle s') =
    fadd v_half (fmul (fdiv (potential_force pot x') m) (fdiv dt f2)) /\
  mass (particle s') = m.
Proof.
  intro B. destruct (loop_body_spec _ _ _ _ B) as (p1 & p4 & E1 & E4 & ->).
  apply apply_force_mass in E1. apply apply_force_mass in E4.
  destruct E1 as (M1 & X1 & V1 & A1). destruct E4 as (M4 & X4 & V4 & A4).
  simpl in M4, X4, V4, A4 |- *.
  rewrite M4, X4, V4, A4, X1, V1, A1, M1. auto.
Qed.

Lemma loop_body_total (pot : Potential) (dt : A) (s s' : LoopState) :
  loop_body pot dt s = inr s' ->
  total_e s' = total_e s ++
    [fadd (kinetic (particle s')) (potential_call pot (position (particle s')))].
Proof.
  intro B. destruct (loop_body_spec _ _ _ _ B) as (p1 & p4 & _ & _ & ->).
  reflexivity.
Qed.

Lemma loop_body_energies (pot : Potential) (dt : A) (s s' : LoopState) :
  loop_body pot dt s = inr s' ->
  ke s' = ke s ++ [kinetic (particle s')] /\
  pe s' = pe s ++ [potential_call pot (position (particle s'))].
Proof.
  intro B. destruct (loop_body_spec _ _ _ _ B) as (p1 & p4 & _ & _ & ->).
  split; reflexivity.
Qed.

Lemma last_nth (l : list A) (d : A) :
  l <> [] -> last l d = nth (length l - 1) l d.
Proof.
  induction l as [|x l IH]; intro Hne; [contradiction|].
  destruct l as [|y l]; [reflexivity|].
  transitivity (last (y :: l) d); [reflexivity|].
  rewrite IH by discriminate.
  replace (length (x :: y :: l) - 1)%nat with (S (length (y :: l) - 1))
    by (simpl; lia).
  reflexivity.
Qed.

Lemma nth_snoc_at (l : list A) (a d : A) (i : nat) :
  i = length l -> nth i (l ++ [a]) d = a.
Proof. intros ->. apply nth_middle. Qed.

Lemma nth_snoc_before (l : list A) (a d : A) (i : nat) :
  i = length l -> l <> [] -> nth (i - 1) (l ++ [a]) d = last l d.
Proof.
  intros -> Hne. rewrite app_nth1.
  - symmetry. apply last_nth. exact Hne.
  - destruct l; [contradiction|simpl; lia].
Qed.

Lemma Forall2_nth_at (P : A -> A -> Prop) (l1 l2 : list A) (d1 d2 : A) :
  Forall2 P l1 l2 -> forall i, (i < length l1)%nat -> P (nth i l1 d1) (nth i l2 d2).
Proof.
  induction 1 as [|x y l1 l2 Hxy _ IH]; intros i Hi; simpl in Hi; [lia|].
  destruct i as [|i]; simpl; [exact Hxy|]. apply IH. lia.
Qed.

End Generic.

(** ** Claims settled for every arithmetic, and concrete binary64 runs *)

(** Two floats are different when [PrimFloat.eqb] tells them apart. *)
Ltac float_neq :=
  let E := fresh "E" in
  intro E;
  lazymatch type of E with
  | ?a = ?b =>
      let Hb := fresh "Hb" in
      assert (Hb : PrimFloat.eqb a b = false) by (vm_compute; reflexivity);
      rewrite E in Hb; vm_compute in Hb; discriminate Hb
  end.

Section Mutation.
Context {A : Type} `{Arith A}.

(** C10: [simulate_particle] mutates the caller's [Particle1D]: when it
    returns, the particle's position and velocity are the last entries of the
    returned positions and velocities, and its mass is the mass it had on
    entry.  This holds in every arithmetic, binary64 included. *)
Theorem simulate_particle_mutates_particle (fuel : nat) (p : Particle1D)
    (pot : Potential) (duration dt : A) (p' : Particle1D) (tr : Trajectory) :
  simulate_particle fuel p pot duration dt = Finished (p', tr) ->
  tr_positions tr <> [] /\
  position p' = last (tr_positions tr) f0 /\
  velocity p' = last (tr_velocities tr) f0 /\
  mass p' = mass p.
Proof.
  intro E. destruct (simulate_inv _ _ _ _ _ _ _ E) as (s & I & -> & ->).
  destruct I as (M & Hne & L1 & _ & _ & _ & _ & _ & P & V). simpl.
  repeat split; auto.
  intro Hn. rewrite Hn in L1. destruct (times s); [congruence|discriminate].
Qed.

(** A run whose loop condition fails at once: [init_state], then the
    test [0.0 < duration]. *)
Lemma simulate_no_iteration (fuel : nat) (p : Particle1D) (pot : Potential)
    (duration dt : A) :
  fltb f0 duration = false ->
  simulate_particle (S fuel) p pot duration dt =
  if init_overflows p pot then Raised OverflowError
  else Finished (p, trajectory_of (first_sample p pot)).
Proof.
  intro H0. unfold simulate_particle. rewrite init_state_eq.
  destruct (init_overflows p pot); [reflexivity|].
  cbn [while_loop]. change (time (first_sample p pot)) with f0. rewrite H0.
  reflexivity.
Qed.



(** C7 (amended): with [duration <= 0] (the loop test [0.0 < duration]
    fails) the loop body never runs: the call returns the initial sample
    only, [times = [0.0]], the particle's position and velocity, the
    energies [0.5 * mass * velocity**2] and [potential(position)] and
    their sum, and leaves the particle unchanged; unless computing those
    initial energies raises [OverflowError].  In every arithmetic. *)
Theorem simulate_particle_nonpositive_duration (p : Particle1D)
    (pot : Potential) (duration dt : A) :
  fltb f0 duration = false ->
  forall fuel,
  simulate_particle (S fuel) p pot duration dt =
  if init_overflows p pot then Raised OverflowError
  else Finished (p,
    {| tr_times := [f0]; tr_positions := [position p];
       tr_velocities := [velocity p];
       energies :=
         {| kinetic_e := [fmul (fmul fhalf (mass p)) (fpow (velocity p) 2)];
            potential_e := [potential_call pot (position p)];
            total := [fadd (fmul (fmul fhalf (mass p)) (fpow (velocity p) 2))
                           (potential_call pot (position p))] |} |}).
Proof.
  intros H0 fuel. rewrite (simulate_no_iteration fuel p pot duration dt H0).
  reflexivity.
Qed.

End Mutation.

(** A binary64 run of [simulate_particle] that returns (harmonic field,
    k = 1, mass 2, duration 1, dt 0.25), on which C10's statement holds. *)
Lemma simulate_particle_mutates_particle_witness :
  exists r,
    simulate_particle 10 (mk_particle 0.5%float (-0.25)%float 2%float)
      (HarmonicPotential 1%float 0%float) 1%float 0.25%float = Finished r /\
    tr_positions (snd r) <> [] /\
    position (fst r) = last (tr_positions (snd r)) 0%float /\
    velocity (fst r) = last (tr_velocities (snd r)) 0%float /\
    mass (fst r) = 2%float.
Proof.
  destruct (simulate_particle 10 (mk_particle 0.5%float (-0.25)%float 2%float)
      (HarmonicPotential 1%float 0%float) 1%float 0.25%float)
    as [[p' tr]|e|] eqn:E; [| vm_compute in E; discriminate ..].
  exists (p', tr). split; [reflexivity|].
  exact (simulate_particle_mutates_particle _ _ _ _ _ _ _ E).
Defined.

(** C7 at a concrete binary64 input: a particle at 1.0 at rest with mass
    1.0, no potential, [duration = -1.0]: the initial energies do not
    overflow and the call returns one sample. *)
Lemma simulate_particle_nonpositive_duration_witness :
  let p := mk_particle 1%float 0%float 1%float in
  fltb 0%float (-1)%float = false /\
  exists r,
    simulate_particle 1 p NoPotential (-1)%float 0.5%float = Finished r /\
    fst r = p /\ tr_times (snd r) = [0%float].
Proof.
  intro p.
  assert (H0 : fltb 0%float (-1)%float = false) by (vm_compute; reflexivity).
  split; [exact H0|].
  rewrite (simulate_particle_nonpositive_duration p NoPotential (-1)%float 0.5%float H0 0).
  destruct (init_overflows p NoPotential) eqn:Ov; [vm_compute in Ov; discriminate|].
  eexists. split; [reflexivity|]. split; reflexivity.
Defined.

(** C7 (counterexample): a binary64 particle with velocity [1e200] and
    [duration = 0.0]: [0.5 * mass * velocity**2] overflows in Python's
    [float ** 2] and the call raises [OverflowError] instead of returning
    the initial sample. *)
Lemma nonpositive_duration_overflow_binary64 :
  PrimFloat.ltb 0 0.5 = true /\
  simulate_particle 1 (mk_particle 0%float 1e200%float 1%float)
    NoPotential 0%float 0.5%float = Raised OverflowError.
Proof. vm_compute. split; reflexivity. Qed.

(** C5 (counterexample): with [simulate_particle]'s default arguments
    [duration = 10.0] and [dt = 0.01], binary64 accumulation of [time += dt]
    stays below [10.0] after 1000 steps, so the loop runs 1001 times and
    returns 1002 samples, while [ceil(duration / dt) + 1] is 1001 (reading
    the quotient exactly or as the binary64 quotient [1000.0]). *)
Lemma simulate_particle_defaults_1002_samples :
  match simulate_particle 1100 (mk_particle 0.5%float 0%float 1%float)
          NoPotential 10%float 0.01%float with
  | Finished (_, tr) =>
      length (tr_times tr) = 1002%nat /\
      (Z.to_nat (Qceiling (f2Q 10%float / f2Q 0.01%float)) + 1 = 1001)%nat /\
      (10 / 0.01)%float = 1000%float
  | _ => False
  end.
Proof. vm_compute. repeat split; reflexivity. Qed.

(** C4 (counterexample): a free particle in binary64, [x0 = 0.1],
    [v0 = 0.3], mass 1, [duration = 1.0] and the positive [dt = inf]: the
    first half kick computes [0.0 * inf = nan], so the recorded
    [velocities[1]] and [positions[1]] are nan, not [v0] and
    [x0 + v0 * times[1]] to any precision. *)
Lemma free_particle_binary64_dt_inf :
  PrimFloat.ltb 0 PrimFloat.infinity = true /\
  match simulate_particle 3 (mk_particle 0.1%float 0.3%float 1%float)
          NoPotential 1%float PrimFloat.infinity with
  | Finished (_, tr) =>
      length (tr_times tr) = 2%nat /\
      nth 0 (tr_velocities tr) 0%float = 0.3%float /\
      PrimFloat.is_nan (nth 1 (tr_velocities tr) 0%float) = true /\
      PrimFloat.is_nan (nth 1 (tr_positions tr) 0%float) = true
  | _ => False
  end.
Proof. vm_compute. repeat split; reflexivity. Qed.

(** ** Binary64 integers and [time += 1.0]

    Below [2^53] every integer is a binary64 number and adding [1.0] to it
    is exact; at [2^53] the sum [2^53 + 1] rounds back to [2^53]. *)

Section Binary64Integers.
Local Open Scope Z_scope.

Lemma digits2_pos_size (p : positive) : digits2_pos p = Pos.size p.
Proof. induction p; simpl; congruence. Qed.

Lemma size_iter_xO (j : nat) (m : positive) :
  Zpos (Pos.size (Nat.iter j xO m)) = Zpos (Pos.size m) + Z.of_nat j.
Proof.
  induction j as [|j IH]; simpl; [lia|].
  rewrite Pos2Z.inj_succ, IH. lia.
Qed.

Lemma Zpos_iter_xO (j : nat) (m : positive) :
  Zpos (Nat.iter j xO m) = Zpos m * 2 ^ Z.of_nat j.
Proof.
  induction j as [|j IH]; simpl Nat.iter; [simpl; lia|].
  rewrite Pos2Z.inj_xO, IH, Nat2Z.inj_succ, Z.pow_succ_r by lia. ring.
Qed.

Lemma iter_pos_nat {T : Type} (f : T -> T) (p : positive) (x : T) :
  iter_pos f p x = Nat.iter (Pos.to_nat p) f x.
Proof.
  revert x. induction p as [p IH|p IH|]; intro x; cbn [iter_pos].
  - rewrite !IH, Pos2Nat.inj_xI, <- Nat.iter_add, <- Nat.iter_succ_r. f_equal. lia.
  - rewrite !IH, Pos2Nat.inj_xO, <- Nat.iter_add. f_equal. lia.
  - reflexivity.
Qed.

Lemma shr_1_iter (n r : nat) (m : positive) :
  Nat.iter n shr_1 {| shr_m := Zpos (Nat.iter (n + r) xO m); shr_r := false; shr_s := false |}
  = {| shr_m := Zpos (Nat.iter r xO m); shr_r := false; shr_s := false |}.
Proof.
  induction n as [|n IH]; [reflexivity|].
  rewrite Nat.iter_succ_r. simpl (S n + r)%nat. rewrite Nat.iter_succ. simpl shr_1.
  exact IH.
Qed.

Lemma Pos_iter_nat (p : positive) (m : positive) :
  Pos.iter xO m p = Nat.iter (Pos.to_nat p) xO m.
Proof.
  revert m. induction p as [p IH|p IH|]; intro m; cbn [Pos.iter].
  - rewrite !IH, Pos2Nat.inj_xI, <- Nat.iter_add, Nat.iter_succ. f_equal. f_equal. lia.
  - rewrite !IH, Pos2Nat.inj_xO, <- Nat.iter_add. f_equal. lia.
  - reflexivity.
Qed.

Lemma fexp64 (z : Z) : -1021 <= z -> fexp prec emax z = z - 53.
Proof. intro H. unfold fexp, emin, prec, emax. lia. Qed.

Lemma round_iter52 (k : positive) :
  (Pos.to_nat (Pos.size k) <= 53)%nat ->
  binary_round prec emax false (Nat.iter 52 xO k) (-52) = sf_int k.
Proof.
  intro Hd.
  set (D := Pos.to_nat (Pos.size k)).
  assert (HD1 : (1 <= D)%nat) by (unfold D; lia).
  assert (HZD : Zpos (Pos.size k) = Z.of_nat D) by (unfold D; lia).
  unfold binary_round.
  rewrite digits2_pos_size, size_iter_xO, fexp64 by lia.
  unfold shl_align.
  replace (Zpos (Pos.size k) + Z.of_nat 52 + -52 - 53 - -52)
    with (Z.of_nat (D - 1)) by lia.
  replace (Zpos (Pos.size k) + Z.of_nat 52 + -52 - 53) with (Z.of_nat D - 53) by lia.
  assert (Hnn : match Z.of_nat (D - 1) with Zneg d => (Pos.iter xO (Nat.iter 52 xO k) d, Z.of_nat D - 53) | _ => (Nat.iter 52 xO k, -52) end = (Nat.iter 52 xO k, -52)).
  { destruct (D - 1)%nat; reflexivity. }
  rewrite Hnn. clear Hnn.
  unfold binary_round_aux, shr_fexp, shr, Zdigits2.
  rewrite digits2_pos_size, size_iter_xO, fexp64 by lia.
  replace (Zpos (Pos.size k) + Z.of_nat 52 + -52 - 53 - -52) with (Z.of_nat (D - 1)) by lia.
  replace (Nat.iter 52 xO k) with (Nat.iter ((D - 1) + (53 - D)) xO k)
    by (f_equal; lia).
  assert (Hsh : (match Z.of_nat (D - 1) with
     | Zpos p => (iter_pos shr_1 p (shr_record_of_loc (Zpos (Nat.iter (D - 1 + (53 - D)) xO k)) loc_Exact),
                  -52 + Z.of_nat (D - 1))
     | _ => (shr_record_of_loc (Zpos (Nat.iter (D - 1 + (53 - D)) xO k)) loc_Exact, -52)
     end) = ({| shr_m := Zpos (Nat.iter (53 - D) xO k); shr_r := false; shr_s := false |},
             Z.of_nat D - 53)).
  { destruct (D - 1)%nat as [|n] eqn:En.
    - assert (HD : D = 1%nat) by lia. rewrite HD. reflexivity.
    - change (Z.of_nat (S n)) with (Zpos (Pos.of_succ_nat n)). cbv beta iota. rewrite iter_pos_nat, SuccNat2Pos.id_succ.
      rewrite <- En. simpl shr_record_of_loc. rewrite shr_1_iter. f_equal. lia. }
  rewrite Hsh. clear Hsh.
  set (r := (53 - D)%nat) in *.
  assert (Hr : Z.of_nat r = 53 - Z.of_nat D) by (unfold r; lia).
  cbn [shr_m shr_r shr_s loc_of_shr_record round_nearest_even shr_record_of_loc].
  rewrite digits2_pos_size, size_iter_xO, fexp64 by lia.
  replace (Zpos (Pos.size k) + Z.of_nat r + (Z.of_nat D - 53) - 53 - (Z.of_nat D - 53))
    with 0 by lia.
  cbn [shr_m].
  replace (Z.leb (Z.of_nat D - 53) (emax - prec)) with true
    by (symmetry; apply Z.leb_le; unfold emax, prec; lia).
  unfold sf_int. f_equal. lia.
Qed.

Lemma size_le_53 (k : positive) : Zpos k < 2 ^ 53 -> (Pos.to_nat (Pos.size k) <= 53)%nat.
Proof.
  intro Hk. pose proof (Pos.size_le k) as L.
  apply Pos2Z.pos_le_pos in L. rewrite Pos2Z.inj_pow in L. change (Zpos 2) with 2 in L. rewrite (Pos2Z.inj_xO k) in L.
  destruct (Nat.le_gt_cases (Pos.to_nat (Pos.size k)) 53) as [H|H]; [exact H|].
  exfalso.
  assert (Hs : 54 <= Zpos (Pos.size k)) by lia.
  assert (2 ^ 54 <= 2 ^ Zpos (Pos.size k)) by (apply Z.pow_le_mono_r; lia).
  assert (E : 2 ^ 54 = 2 * 2 ^ 53) by reflexivity. lia.
Qed.

Lemma shl_align_sf_int (k : positive) :
  (Pos.to_nat (Pos.size k) <= 53)%nat ->
  fst (shl_align (Nat.iter (53 - Pos.to_nat (Pos.size k)) xO k)
                 (Zpos (Pos.size k) - 53) (-52)) = Nat.iter 52 xO k.
Proof.
  intro Hd. unfold shl_align.
  set (D := Pos.to_nat (Pos.size k)) in *.
  assert (HZD : Zpos (Pos.size k) = Z.of_nat D) by (unfold D; lia).
  assert (HD1 : (1 <= D)%nat) by (unfold D; lia).
  rewrite HZD.
  destruct (Nat.eq_dec D 1) as [E1|E1].
  - rewrite E1. reflexivity.
  - replace (-52 - (Z.of_nat D - 53)) with (Zneg (Pos.of_nat (D - 1))).
    + set (r := (53 - D)%nat). cbn [fst]. rewrite Pos_iter_nat, Nat2Pos.id by lia.
      rewrite <- Nat.iter_add. f_equal. unfold r. lia.
    + assert (1 <= D)%nat by (unfold D; lia).
      rewrite <- Pos2Z.opp_pos, <- positive_nat_Z, Nat2Pos.id by lia. lia.
Qed.

Lemma add_one (k : positive) :
  Zpos k + 1 < 2 ^ 53 ->
  SF64add (sf_int k) (sf_int 1%positive) = sf_int (Pos.succ k).
Proof.
  intro Hk.
  assert (Hd : (Pos.to_nat (Pos.size k) <= 53)%nat) by (apply size_le_53; lia).
  assert (Hd' : (Pos.to_nat (Pos.size (Pos.succ k)) <= 53)%nat)
    by (apply size_le_53; rewrite Pos2Z.inj_succ; lia).
  rewrite <- (round_iter52 (Pos.succ k) Hd').
  unfold SF64add, SFadd, sf_int at 1.
  change (sf_int 1%positive) with (S754_finite false (Nat.iter 52 xO 1%positive) (-52)).
  cbv beta iota.
  rewrite Z.min_r by lia.
  rewrite (shl_align_sf_int k Hd).
  change (fst (shl_align (Nat.iter 52 xO 1%positive) (-52) (-52))) with (Nat.iter 52 xO 1%positive).
  unfold cond_Zopp.
  replace (Zpos (Nat.iter 52 xO k) + Zpos (Nat.iter 52 xO 1%positive))
    with (Zpos (Nat.iter 52 xO (Pos.succ k)))
    by (rewrite !Zpos_iter_xO, Pos2Z.inj_succ; ring).
  reflexivity.
Qed.

Lemma stall_step (s : @LoopState float) :
  particle s = (mk_particle 0%float 0%float 1%float) ->
  exists s', loop_body NoPotential 1%float s = inr s' /\
             particle s' = (mk_particle 0%float 0%float 1%float) /\ time s' = PrimFloat.add (time s) 1%float.
Proof.
  destruct s as [p t ts xs vs ks us es]; cbn [particle time]; intro Hp; subst p.
  eexists. split; [reflexivity|]. split; reflexivity.
Qed.

Lemma stall_time_step (t : float) :
  stall_time_ok t -> stall_time_ok (PrimFloat.add t 1%float).
Proof.
  intros [H|[(k & Hk & H)|H]].
  - subst t. right; left. exists 1%positive. split; [lia|]. vm_compute. reflexivity.
  - destruct (Z.eq_dec (Zpos k + 1) (2 ^ 53)) as [E|E].
    + right; right.
      assert (Ek : k = 9007199254740991%positive) by lia. subst k.
      rewrite <- (SF2Prim_Prim2SF t), H. vm_compute. reflexivity.
    + right; left. exists (Pos.succ k). split; [rewrite Pos2Z.inj_succ; lia|].
      rewrite add_spec, H.
      change (Prim2SF 1%float) with (sf_int 1%positive).
      apply add_one. lia.
  - subst t. right; right. vm_compute. reflexivity.
Qed.

Lemma stall_time_lt (t : float) :
  stall_time_ok t -> PrimFloat.ltb t 1e17%float = true.
Proof.
  intros [H|[(k & Hk & H)|H]].
  - subst t. vm_compute. reflexivity.
  - rewrite ltb_spec, H.
    change (Prim2SF 1e17%float) with (S754_finite false 6250000000000000 4).
    assert (Hd : (Pos.to_nat (Pos.size k) <= 53)%nat) by (apply size_le_53; lia).
    unfold sf_int, SFltb, SFcompare.
    replace (Z.compare (Zpos (Pos.size k) - 53) 4) with Lt by (symmetry; apply Z.compare_lt_iff; lia).
    reflexivity.
  - subst t. vm_compute. reflexivity.
Qed.

Lemma stall_while (fuel : nat) (s : @LoopState float) :
  particle s = (mk_particle 0%float 0%float 1%float) -> stall_time_ok (time s) ->
  while_loop fuel NoPotential 1e17%float 1%float s = OutOfFuel.
Proof.
  revert s. induction fuel as [|fuel IH]; intros s Hp Ht; [reflexivity|].
  cbn [while_loop]. change (fltb (time s) 1e17%float) with (PrimFloat.ltb (time s) 1e17%float).
  rewrite (stall_time_lt _ Ht).
  destruct (stall_step s Hp) as (s' & E & Hp' & Ht'). rewrite E.
  apply IH; [exact Hp'|]. rewrite Ht'. apply stall_time_step, Ht.
Qed.

End Binary64Integers.

(** C8 (counterexample): a binary64 particle at rest with mass 1.0, no
    potential, [dt = 1.0] and the finite [duration = 1e17]: [time] counts
    [0.0, 1.0, 2.0, ...] up to [2^53 = 9007199254740992.0], where
    [time + 1.0] rounds back to [2^53 < 1e17]; the loop never ends. *)
Lemma simulate_particle_stall_binary64 :
  PrimFloat.ltb 0 1 = true /\ PrimFloat.is_finite 1e17 = true /\
  diverges (mk_particle 0%float 0%float 1%float) NoPotential 1e17%float 1%float.
Proof.
  split; [reflexivity|]. split; [reflexivity|].
  intro fuel. unfold simulate_particle.
  change (init_state (mk_particle 0%float 0%float 1%float) NoPotential) with (@inr exn _ (first_sample (mk_particle 0%float 0%float 1%float) NoPotential)).
  cbv beta iota. rewrite stall_while; [reflexivity|reflexivity|left; reflexivity].
Qed.

(** ** Exact real arithmetic *)

Section Exact.
Local Open Scope R_scope.

Lemma R_fltb_spec (x y : R) : fltb x y = true <-> x < y.
Proof. simpl. destruct (Rlt_dec x y); split; intro; auto; discriminate. Qed.

Lemma R_fltb_false (x y : R) : y <= x -> fltb x y = false.
Proof. intro H. simpl. destruct (Rlt_dec x y); [lra|reflexivity]. Qed.

Lemma R_fltb_false_inv (x y : R) : fltb x y = false -> y <= x.
Proof. simpl. destruct (Rlt_dec x y); [discriminate|lra]. Qed.

Lemma R_feqb_spec (x y : R) : feqb x y = true <-> x = y.
Proof. simpl. destruct (Req_dec_T x y); split; intro; auto; congruence. Qed.

Lemma R_feqb_false (x y : R) : x <> y -> feqb x y = false.
Proof. intro H. simpl. destruct (Req_dec_T x y); [contradiction|reflexivity]. Qed.

Lemma R_no_overflow (y : R) (n : nat) : fpow_overflows y n = false.
Proof. reflexivity. Qed.

Lemma while_loop_S (fuel : nat) (pot : @Potential R) (duration dt : R)
    (s : LoopState) :
  while_loop (S fuel) pot duration dt s =
  if fltb (time s) duration then
    match loop_body pot dt s with
    | inl e => Raised e
    | inr s' => while_loop fuel pot duration dt s'
    end
  else Finished s.
Proof. reflexivity. Qed.

Lemma loop_body_time (pot : @Potential R) (dt : R) (s s' : LoopState) :
  loop_body pot dt s = inr s' -> time s' = time s + dt.
Proof. intro B. destruct (loop_body_shape _ _ _ _ B) as (_ & T & _). exact T. Qed.

(** In exact arithmetic [apply_force] succeeds only on a nonzero mass. *)
Lemma R_apply_force_mass (p q : @Particle1D R) (F : R * bool) :
  apply_force p F = inr q -> mass p <> 0.
Proof.
  unfold apply_force. destruct (feqb (mass p) f0) eqn:E.
  - destruct (snd F); simpl; discriminate.
  - intros _ Hm. simpl in E. destruct (Req_dec_T (mass p) 0); [discriminate|contradiction].
Qed.

Lemma R_loop_body_mass (pot : @Potential R) (dt : R) (s s' : LoopState) :
  loop_body pot dt s = inr s' -> mass (particle s) <> 0.
Proof.
  intro B. destruct (loop_body_spec _ _ _ _ B) as (p1 & p4 & E1 & _).
  exact (R_apply_force_mass _ _ _ E1).
Qed.

Lemma R_init_state (p : @Particle1D R) (pot : Potential) :
  init_state p pot = inr (first_sample p pot).
Proof. apply init_state_total. exact R_no_overflow. Qed.

(** A run with [duration <= 0] returns the initial sample at once. *)
Lemma simulate_nonpositive_duration (p : Particle1D) (pot : Potential)
    (duration dt : R) (fuel : nat) :
  duration <= 0 ->
  simulate_particle (S fuel) p pot duration dt =
  Finished (p, trajectory_of (first_sample p pot)).
Proof.
  intro H. rewrite simulate_no_iteration by (apply R_fltb_false; exact H).
  rewrite (init_overflows_false R_no_overflow). reflexivity.
Qed.


(** With [dt > 0] the loop stops once [time + n * dt >= duration]. *)
Lemma while_loop_stops (pot : @Potential R) (duration dt : R) :
  0 < dt -> forall n s, duration <= time s + INR n * dt ->
  while_loop (S n) pot duration dt s <> OutOfFuel.
Proof.
  intros Hdt n. induction n as [|n IH]; intros s Hs; rewrite while_loop_S.
  - simpl INR in Hs. rewrite R_fltb_false by lra. discriminate.
  - destruct (fltb (time s) duration); [|discriminate].
    destruct (loop_body pot dt s) as [e|s'] eqn:B; [discriminate|].
    apply IH. rewrite (loop_body_time _ _ _ _ B).
    rewrite S_INR in Hs. lra.
Qed.

(** With [dt <= 0], [duration > 0] and a nonzero mass the loop never stops. *)
Lemma while_loop_forever (pot : @Potential R) (duration dt : R) :
  dt <= 0 -> 0 < duration -> forall fuel s,
  time s <= 0 -> mass (particle s) <> 0 ->
  while_loop fuel pot duration dt s = OutOfFuel.
Proof.
  intros Hdt Hd fuel. induction fuel as [|fuel IH]; intros s Ht Hm;
    [reflexivity|].
  rewrite while_loop_S.
  replace (fltb (time s) duration) with true
    by (symmetry; apply R_fltb_spec; lra).
  destruct (loop_body_ok pot dt s R_no_overflow (R_feqb_false _ _ Hm)) as [s' B].
  rewrite B. apply IH.
  - rewrite (loop_body_time _ _ _ _ B). lra.
  - destruct (loop_body_shape _ _ _ _ B) as [M _]. congruence.
Qed.

(** With [dt <= 0] and [duration > 0] the loop never returns. *)
Lemma while_loop_never_finishes (pot : @Potential R) (duration dt : R) :
  dt <= 0 -> 0 < duration -> forall fuel s s',
  time s <= 0 -> while_loop fuel pot duration dt s <> Finished s'.
Proof.
  intros Hdt Hd fuel. induction fuel as [|fuel IH]; intros s s' Ht;
    [discriminate|].
  rewrite while_loop_S.
  replace (fltb (time s) duration) with true
    by (symmetry; apply R_fltb_spec; lra).
  destruct (loop_body pot dt s) as [e|s1] eqn:B; [discriminate|].
  apply IH. rewrite (loop_body_time _ _ _ _ B). lra.
Qed.

Lemma simulate_stops (p : Particle1D) (pot : @Potential R) (duration dt : R) :
  0 < dt -> exists fuel, simulate_particle fuel p pot duration dt <> OutOfFuel.
Proof.
  intro Hdt. destruct (INR_unbounded (duration / dt)) as [n Hn].
  exists (S n). unfold simulate_particle. rewrite R_init_state.
  assert (Hs : duration <= time (first_sample p pot) + INR n * dt).
  { simpl. assert (duration / dt * dt = duration) by (field; lra).
    assert (duration / dt * dt < INR n * dt)
      by (apply Rmult_lt_compat_r; lra).
    lra. }
  pose proof (while_loop_stops pot duration dt Hdt n _ Hs) as NS.
  destruct (while_loop (S n) pot duration dt (first_sample p pot)); congruence.
Qed.

Lemma simulate_forever (p : Particle1D) (pot : @Potential R) (duration dt : R) :
  dt <= 0 -> 0 < duration -> mass p <> 0 -> diverges p pot duration dt.
Proof.
  intros Hdt Hd Hm fuel. unfold simulate_particle. rewrite R_init_state.
  rewrite (while_loop_forever pot duration dt Hdt Hd fuel); simpl; auto; lra.
Qed.

Lemma simulate_never_finishes (p : Particle1D) (pot : @Potential R)
    (duration dt : R) :
  dt <= 0 -> 0 < duration -> forall fuel r,
  simulate_particle fuel p pot duration dt <> Finished r.
Proof.
  intros Hdt Hd fuel r. unfold simulate_particle. rewrite R_init_state.
  destruct (while_loop fuel pot duration dt (first_sample p pot)) as [s| |]
    eqn:E; try discriminate.
  exfalso. apply (while_loop_never_finishes pot duration dt Hdt Hd fuel
                    (first_sample p pot) s); [simpl; lra|exact E].
Qed.



Lemma Rceil_unique (x : R) (z : Z) : IZR z - 1 < x -> x <= IZR z -> Rceil x = z.
Proof.
  intros H1 H2. unfold Rceil.
  rewrite <- (tech_up (- x) (1 - z)); [lia| |]; rewrite minus_IZR; simpl; lra.
Qed.

(** In exact arithmetic, with [dt > 0] and [duration > 0], a returned run
    has [ceil(duration / dt) + 1] samples. *)
Lemma length_exact_R (fuel : nat) (p : Particle1D)
    (pot : @Potential R) (duration dt : R) (p' : Particle1D) (tr : Trajectory) :
  0 < dt -> 0 < duration ->
  simulate_particle fuel p pot duration dt = Finished (p', tr) ->
  length (tr_times tr) = (Z.to_nat (Rceil (duration / dt)) + 1)%nat.
Proof.
  intros Hdt Hd E.
  destruct (simulate_invariant
    (fun s => time s = INR (length (times s) - 1) * dt /\
              (length (times s) = 1%nat \/
               INR (length (times s) - 2) * dt < duration))
    fuel p pot duration dt p' tr) as (s & [Ht Hprev] & I & C & -> & ->).
  { intros s1 s2 [H1 _] I1 C B.
    destruct (loop_body_shape _ _ _ _ B) as (_ & T2 & Ts & _).
    destruct I1 as (_ & Hne & _).
    apply R_fltb_spec in C. simpl in T2.
    rewrite Ts, length_app. simpl length.
    destruct (times s1) as [|t0 l] eqn:Hl; [contradiction|].
    simpl length in *.
    replace (S (length l) + 1 - 1)%nat with (S (length l)) by lia.
    replace (S (length l) + 1 - 2)%nat with (length l) by lia.
    replace (S (length l) - 1)%nat with (length l) in H1 by lia.
    rewrite S_INR. split; [rewrite T2, H1; ring|right; lra]. }
  { simpl. split; [ring|left; reflexivity]. }
  { exact E. }
  apply R_fltb_false_inv in C.
  destruct I as (_ & Hne & _).
  simpl.
  destruct (times s) as [|t0 l] eqn:Hl; [contradiction|]. simpl length in *.
  destruct Hprev as [Hone|Hprev].
  - injection Hone as Hz. rewrite Hz in Ht. simpl in Ht. lra.
  - destruct l as [|t1 l]; [simpl in Ht; lra|].
    simpl length in *.
    replace (S (S (length l)) - 1)%nat with (S (length l)) in Ht by lia.
    replace (S (S (length l)) - 2)%nat with (length l) in Hprev by lia.
    assert (Hc : Rceil (duration / dt) = Z.of_nat (S (length l))).
    { apply Rceil_unique; rewrite <- INR_IZR_INZ; rewrite S_INR in *.
      - apply (Rmult_lt_reg_r dt); [exact Hdt|].
        replace (duration / dt * dt) with duration by (field; lra). lra.
      - apply (Rmult_le_reg_r dt); [exact Hdt|].
        replace (duration / dt * dt) with duration by (field; lra). lra. }
    rewrite Hc, Nat2Z.id. lia.
Qed.

End Exact.

(** Evaluates a concrete run in exact arithmetic: every comparison is decided
    by [lra]. *)
Ltac R_decide :=
  repeat match goal with
  | |- context [Rlt_dec ?a ?b] =>
      destruct (Rlt_dec a b); try (exfalso; lra)
  | |- context [Rle_dec ?a ?b] =>
      destruct (Rle_dec a b); try (exfalso; lra)
  | |- context [Req_dec_T ?a ?b] =>
      destruct (Req_dec_T a b); try (exfalso; lra)
  end.

Ltac R_run :=
  cbv -[Rlt_dec Rle_dec Req_dec_T Rplus Rminus Rmult Rdiv Ropp Rabs pow IZR];
  R_decide.

Section ExactClaims.
Local Open Scope R_scope.

(** C8 (amended): in exact arithmetic, for [dt > 0] (and any [duration])
    the loop ends after finitely many iterations; for [dt <= 0] and
    [duration > 0] the call never returns, and with a nonzero mass it runs
    forever (a zero mass stops it with an exception). *)
Theorem simulate_particle_termination (p : Particle1D) (pot : @Potential R)
    (duration dt : R) :
  (0 < dt -> exists fuel, simulate_particle fuel p pot duration dt <> OutOfFuel) /\
  (dt <= 0 -> 0 < duration -> forall fuel r,
     simulate_particle fuel p pot duration dt <> Finished r) /\
  (dt <= 0 -> 0 < duration -> mass p <> 0 -> diverges p pot duration dt).
Proof.
  split; [apply simulate_stops|]. split.
  - apply simulate_never_finishes.
  - apply simulate_forever.
Qed.


End ExactClaims.

(** C8 at a concrete input: a particle at 1 at rest, mass 1, no potential,
    [duration = 1], [dt = 1/2]: some fuel ends the loop. *)
Lemma simulate_particle_termination_witness :
  exists fuel, simulate_particle fuel (mk_particle 1%R 0%R 1%R) NoPotential
                 1%R (1/2)%R <> OutOfFuel.
Proof.
  apply (proj1 (simulate_particle_termination (mk_particle 1%R 0%R 1%R)
                  NoPotential 1%R (1/2)%R)).
  lra.
Defined.



Section ExactLength.
Local Open Scope R_scope.

(** C5 (amended): in every arithmetic, binary64 included, the six
    sequences of a returned run have one common length; in exact arithmetic,
    for [dt > 0] and [duration > 0], that length is [ceil(duration / dt) + 1]. *)
Theorem simulate_particle_length_exact :
  (forall (B : Type) (HB : Arith B) (fuel : nat) (p : @Particle1D B)
          (pot : Potential) (duration dt : B) (p' : Particle1D) (tr : Trajectory),
     simulate_particle fuel p pot duration dt = Finished (p', tr) ->
     let n := length (tr_times tr) in
     length (tr_positions tr) = n /\ length (tr_velocities tr) = n /\
     length (kinetic_e (energies tr)) = n /\
     length (potential_e (energies tr)) = n /\ length (total (energies tr)) = n) /\
  (forall (fuel : nat) (p : @Particle1D R) (pot : Potential) (duration dt : R)
          (p' : Particle1D) (tr : Trajectory),
     0 < dt -> 0 < duration ->
     simulate_particle fuel p pot duration dt = Finished (p', tr) ->
     let n := (Z.to_nat (Rceil (duration / dt)) + 1)%nat in
     length (tr_times tr) = n /\ length (tr_positions tr) = n /\
     length (tr_velocities tr) = n /\ length (kinetic_e (energies tr)) = n /\
     length (potential_e (energies tr)) = n /\ length (total (energies tr)) = n).
Proof.
  split.
  - intros B HB fuel p pot duration dt p' tr E. exact (simulate_lengths _ _ _ _ _ _ _ E).
  - intros fuel p pot duration dt p' tr Hdt Hd E. cbv zeta.
    pose proof (length_exact_R _ _ _ _ _ _ _ Hdt Hd E) as L.
    destruct (simulate_lengths _ _ _ _ _ _ _ E) as (L1 & L2 & L3 & L4 & L5).
    rewrite <- L. repeat split; assumption.
Qed.

End ExactLength.

(** C5 at concrete inputs: the binary64 run [run_float] has six sequences
    of one length; the exact run of a particle at 1 at rest, mass 1, no
    potential, [duration = 1], [dt = 1/2] returns [ceil(2) + 1 = 3]
    samples. *)
Lemma simulate_particle_length_exact_witness :
  length (tr_positions (snd run_float)) = length (tr_times (snd run_float)) /\
  exists r,
    simulate_particle 3 (mk_particle 1%R 0%R 1%R) NoPotential 1%R (1/2)%R =
    Finished r /\
    length (tr_times (snd r)) = (Z.to_nat (Rceil (1 / (1/2))) + 1)%nat.
Proof.
  split.
  - assert (E : simulate_particle 20 (mk_particle 0.1%float 0.3%float 1%float)
                  (HarmonicPotential 1%float 0%float) 1%float 0.1%float = Finished run_float)
      by (vm_compute; reflexivity).
    rewrite (surjective_pairing run_float) in E.
    exact (proj1 (proj1 simulate_particle_length_exact float float_arith _ _ _ _ _ _ _ E)).
  - assert (Hdt : (0 < 1/2)%R) by lra. assert (Hd : (0 < 1)%R) by lra.
    assert (E : exists r, simulate_particle 3 (mk_particle 1%R 0%R 1%R)
                            NoPotential 1%R (1/2)%R = Finished r).
    { eexists. R_run. reflexivity. }
    destruct E as [[p' tr] E]. exists (p', tr). split; [exact E|].
    exact (proj1 (proj2 simulate_particle_length_exact 3%nat _ _ _ _ p' tr Hdt Hd E)).
Defined.

Section ExactTrajectory.
Local Open Scope R_scope.

(** C4 (amended): in exact arithmetic, a run with [NoPotential] that returns
    satisfies [positions[i] = positions[0] + velocities[0] * times[i]] and
    [velocities[i] = velocities[0]] at every index. *)
Theorem free_particle_exact (fuel : nat) (p : Particle1D) (duration dt : R)
    (p' : Particle1D) (tr : Trajectory) :
  simulate_particle fuel p NoPotential duration dt = Finished (p', tr) ->
  forall i, (i < length (tr_times tr))%nat ->
  nth i (tr_positions tr) 0 =
    nth 0 (tr_positions tr) 0 + nth 0 (tr_velocities tr) 0 * nth i (tr_times tr) 0 /\
  nth i (tr_velocities tr) 0 = nth 0 (tr_velocities tr) 0.
Proof.
  intro E.
  set (x0 := position p). set (v0 := velocity p).
  destruct (simulate_invariant
    (fun s => velocity (particle s) = v0 /\
              position (particle s) = x0 + v0 * time s /\
              Forall2 (fun x t => x = x0 + v0 * t) (positions s) (times s) /\
              Forall (fun v => v = v0) (velocities s) /\
              nth 0 (positions s) 0 = x0 /\ nth 0 (velocities s) 0 = v0)
    fuel p NoPotential duration dt p' tr)
    as (s & (Hv & Hx & F2 & FV & H0x & H0v) & I & _ & -> & ->).
  { intros s1 s2 (Hv & Hx & F2 & FV & H0x & H0v) I1 _ B.
    destruct (loop_body_shape _ _ _ _ B) as (_ & T2 & Ts & Ps & Vs & _).
    destruct (loop_body_kdk _ _ _ _ B) as (_ & P2 & V2 & _).
    destruct I1 as (_ & Hne & L1 & L2 & _).
    simpl in T2, P2, V2.
    assert (Hv2 : velocity (particle s2) = v0).
    { rewrite V2, Hv. unfold Rdiv. ring. }
    assert (Hx2 : position (particle s2) = x0 + v0 * time s2).
    { rewrite P2, T2, Hx, Hv. unfold Rdiv. ring. }
    rewrite Ts, Ps, Vs.
    assert (Hpos : (0 < length (positions s1))%nat)
      by (rewrite L1; destruct (times s1); [contradiction|simpl; lia]).
    assert (Hvel : (0 < length (velocities s1))%nat)
      by (rewrite L2; destruct (times s1); [contradiction|simpl; lia]).
    repeat split; auto.
    - apply Forall2_app; [exact F2|]. constructor; [|constructor].
      rewrite Hx2. reflexivity.
    - apply Forall_app. split; [exact FV|]. constructor; [exact Hv2|constructor].
    - rewrite app_nth1 by exact Hpos. exact H0x.
    - rewrite app_nth1 by exact Hvel. exact H0v. }
  { unfold x0, v0. simpl. repeat split; try ring.
    - constructor; [ring|constructor].
    - constructor; [reflexivity|constructor]. }
  { exact E. }
  destruct I as (_ & _ & L1 & L2 & _).
  intros i Hi. simpl in Hi |- *. rewrite H0x, H0v. split.
  - apply (Forall2_nth_at _ _ _ 0 0 F2). rewrite L1. exact Hi.
  - apply Forall_nth; [exact FV|]. rewrite L2. exact Hi.
Qed.

(** C2: for a particle of nonzero mass [m] and any potential, consecutive
    recorded samples satisfy the kick-drift-kick equations
    [v_half = v[i-1] + (dt/2) * F(x[i-1]) / m], [x[i] = x[i-1] + dt * v_half],
    [v[i] = v_half + (dt/2) * F(x[i]) / m] and [t[i] = t[i-1] + dt].
    (In every arithmetic, binary64 included, the same holds with the code's
    order of operations [F / m * (dt / 2)]: [loop_body_kdk].) *)
Theorem simulate_particle_velocity_verlet (fuel : nat) (p : Particle1D)
    (pot : @Potential R) (duration dt : R) (p' : Particle1D) (tr : Trajectory) :
  mass p <> 0 ->
  simulate_particle fuel p pot duration dt = Finished (p', tr) ->
  forall i, (1 <= i < length (tr_times tr))%nat ->
  let m := mass p in
  let x := nth (i - 1) (tr_positions tr) 0 in
  let v := nth (i - 1) (tr_velocities tr) 0 in
  let v_half := v + (dt / 2) * potential_force pot x / m in
  nth i (tr_positions tr) 0 = x + dt * v_half /\
  nth i (tr_velocities tr) 0 =
    v_half + (dt / 2) * potential_force pot (nth i (tr_positions tr) 0) / m /\
  nth i (tr_times tr) 0 = nth (i - 1) (tr_times tr) 0 + dt.
Proof.
  intros Hm E.
  set (m := mass p).
  destruct (simulate_invariant
    (fun s => forall i, (1 <= i < length (times s))%nat ->
       let x := nth (i - 1) (positions s) 0 in
       let v := nth (i - 1) (velocities s) 0 in
       let v_half := v + (dt / 2) * potential_force pot x / m in
       nth i (positions s) 0 = x + dt * v_half /\
       nth i (velocities s) 0 =
         v_half + (dt / 2) * potential_force pot (nth i (positions s) 0) / m /\
       nth i (times s) 0 = nth (i - 1) (times s) 0 + dt)
    fuel p pot duration dt p' tr) as (s & HP & _ & _ & -> & ->).
  { intros s1 s2 H1 I1 _ B i Hi.
    destruct (loop_body_shape _ _ _ _ B) as (_ & T2 & Ts & Ps & Vs & _).
    destruct (loop_body_kdk _ _ _ _ B) as (_ & P2 & V2 & _).
    destruct I1 as (M1 & Hne & L1 & L2 & _ & _ & _ & LT & LP & LV).
    simpl in T2, P2, V2. rewrite M1 in P2, V2. fold m in P2, V2.
    rewrite Ts, length_app in Hi. simpl length in Hi.
    rewrite Ts, Ps, Vs.
    set (n := length (times s1)) in *.
    assert (Hi1 : (i - 1 < n)%nat) by lia.
    destruct (Nat.lt_ge_cases i n) as [Hlt|Hge].
    - rewrite !app_nth1 by lia. apply H1. lia.
    - assert (Hin : i = n) by lia.
      assert (NP : positions s1 <> [])
        by (intro Hn; rewrite Hn in L1; simpl in L1;
            destruct (times s1); [contradiction|discriminate]).
      assert (NV : velocities s1 <> [])
        by (intro Hn; rewrite Hn in L2; simpl in L2;
            destruct (times s1); [contradiction|discriminate]).
      rewrite (nth_snoc_at (positions s1) _ _ i) by lia.
      rewrite (nth_snoc_at (velocities s1) _ _ i) by lia.
      rewrite (nth_snoc_at (times s1) _ _ i) by lia.
      rewrite (nth_snoc_before (positions s1) _ _ i) by (auto; lia).
      rewrite (nth_snoc_before (velocities s1) _ _ i) by (auto; lia).
      rewrite (nth_snoc_before (times s1) _ _ i) by (auto; lia).
      change f0 with 0 in LP, LV, LT. rewrite LP, LV, LT.
      assert (Hx : position (particle s2) =
        position (particle s1) + dt * (velocity (particle s1)
          + dt / 2 * potential_force pot (position (particle s1)) / m)).
      { rewrite P2. unfold Rdiv. ring. }
      split; [exact Hx|]. split; [|exact T2].
      rewrite V2, P2. unfold Rdiv. ring. }
  { intros i Hi. simpl in Hi. lia. }
  { exact E. }
  exact HP.
Qed.

(** C6: a box of width [w > 0], center [c] and stiffness [s > 0] has zero
    potential energy and zero force wherever [|x - c| <= w / 2], the two
    walls [c +- w/2] included; outside, the potential energy is strictly
    positive and the force points back into the box (negative beyond the
    right wall, positive beyond the left one). *)
Theorem box_potential_boundary (w c s : R) :
  0 < w -> 0 < s ->
  let pot := mk_BoxPotential w c s in
  (forall x, Rabs (x - c) <= w / 2 ->
     potential_call pot x = 0 /\ potential_force pot x = 0) /\
  (potential_call pot (c + w / 2) = 0 /\ potential_force pot (c + w / 2) = 0 /\
   potential_call pot (c - w / 2) = 0 /\ potential_force pot (c - w / 2) = 0) /\
  (forall x, w / 2 < Rabs (x - c) ->
     0 < potential_call pot x /\
     (c < x -> potential_force pot x < 0) /\
     (x < c -> 0 < potential_force pot x)).
Proof.
  intros Hw Hs pot.
  assert (Inside : forall x, Rabs (x - c) <= w / 2 ->
            potential_call pot x = 0 /\ potential_force pot x = 0).
  { intros x Hx. simpl.
    destruct (Rle_dec (Rabs (x - c)) (w / 2)); [|contradiction]. auto. }
  split; [exact Inside|]. split.
  - assert (Hr : Rabs (c + w / 2 - c) <= w / 2)
      by (replace (c + w / 2 - c) with (w / 2) by ring;
          rewrite Rabs_right by lra; lra).
    assert (Hl : Rabs (c - w / 2 - c) <= w / 2)
      by (replace (c - w / 2 - c) with (- (w / 2)) by ring;
          rewrite Rabs_Ropp, Rabs_right by lra; lra).
    destruct (Inside _ Hr), (Inside _ Hl). auto.
  - intros x Hx. simpl. unfold np_sign. simpl.
    destruct (Rle_dec (Rabs (x - c)) (w / 2)) as [H|_]; [lra|].
    split; [|split].
    + apply Rmult_lt_0_compat; [lra|]. nra.
    + intro Hcx. rewrite Rabs_right in * by lra.
      destruct (Rlt_dec 0 (x - c)); [|lra]. nra.
    + intro Hcx. rewrite Rabs_left in * by lra.
      destruct (Rlt_dec 0 (x - c)); [lra|].
      destruct (Rlt_dec (x - c) 0); [|lra]. nra.
Qed.

(** C9: the harmonic and quartic potentials are symmetric about their
    center: equal potential energy and opposite forces at [c + d] and
    [c - d], for every [k], [a], [c] and [d]. *)
Theorem harmonic_quartic_symmetry (k a c d : R) :
  potential_call (HarmonicPotential k c) (c + d) =
    potential_call (HarmonicPotential k c) (c - d) /\
  potential_force (HarmonicPotential k c) (c + d) =
    - potential_force (HarmonicPotential k c) (c - d) /\
  potential_call (QuarticPotential a c) (c + d) =
    potential_call (QuarticPotential a c) (c - d) /\
  potential_force (QuarticPotential a c) (c + d) =
    - potential_force (QuarticPotential a c) (c - d).
Proof. simpl. repeat split; ring. Qed.

End ExactTrajectory.

(** C2 at a concrete input: [run_harmonic] returns, and its sample 1 is
    the kick-drift-kick step from sample 0. *)
Lemma simulate_particle_velocity_verlet_witness :
  simulate_particle 3 (mk_particle 1%R (1/2)%R 1%R)
    (HarmonicPotential 1%R 0%R) 1%R (1/2)%R = Finished run_harmonic /\
  (1 <= 1 < length (tr_times (snd run_harmonic)))%nat /\
  let tr := snd run_harmonic in
  let pot := HarmonicPotential 1%R 0%R in
  let x := nth 0 (tr_positions tr) 0%R in
  let v := nth 0 (tr_velocities tr) 0%R in
  let v_half := (v + (1/2) / 2 * potential_force pot x / 1)%R in
  nth 1 (tr_positions tr) 0%R = (x + 1/2 * v_half)%R /\
  nth 1 (tr_velocities tr) 0%R =
    (v_half + (1/2) / 2 * potential_force pot (nth 1 (tr_positions tr) 0%R) / 1)%R /\
  nth 1 (tr_times tr) 0%R = (nth 0 (tr_times tr) 0 + 1/2)%R.
Proof.
  assert (E : simulate_particle 3 (mk_particle 1%R (1/2)%R 1%R)
                (HarmonicPotential 1%R 0%R) 1%R (1/2)%R = Finished run_harmonic)
    by (unfold run_harmonic, finished_or; R_run; reflexivity).
  assert (L : (1 <= 1 < length (tr_times (snd run_harmonic)))%nat)
    by (unfold run_harmonic, finished_or; R_run; simpl; lia).
  assert (Hm : mass (mk_particle 1%R (1/2)%R 1%R) <> 0%R)
    by (simpl; exact R1_neq_R0).
  split; [exact E|]. split; [exact L|].
  rewrite (surjective_pairing run_harmonic) in E.
  exact (simulate_particle_velocity_verlet 3 _ _ _ _ _ _ Hm E 1 L).
Defined.

(** C4 (amended) at a concrete input: [run_free] returns and its sample 2
    is on the line [x0 + v0 * t]. *)
Lemma free_particle_exact_witness :
  simulate_particle 3 (mk_particle 1%R (1/2)%R 1%R) NoPotential 1%R (1/2)%R =
    Finished run_free /\
  (2 < length (tr_times (snd run_free)))%nat /\
  let tr := snd run_free in
  nth 2 (tr_positions tr) 0%R =
    (nth 0 (tr_positions tr) 0 + nth 0 (tr_velocities tr) 0 * nth 2 (tr_times tr) 0)%R /\
  nth 2 (tr_velocities tr) 0%R = nth 0 (tr_velocities tr) 0%R.
Proof.
  assert (E : simulate_particle 3 (mk_particle 1%R (1/2)%R 1%R) NoPotential
                1%R (1/2)%R = Finished run_free)
    by (unfold run_free, finished_or; R_run; reflexivity).
  assert (L : (2 < length (tr_times (snd run_free)))%nat)
    by (unfold run_free, finished_or; R_run; simpl; lia).
  split; [exact E|]. split; [exact L|].
  rewrite (surjective_pairing run_free) in E.
  exact (free_particle_exact 3 _ _ _ _ _ E 2 L).
Defined.

(** C6 at a concrete input: the default box of [BoxPotential.__init__]
    (width 2, center 0, stiffness 1000). *)
Lemma box_potential_boundary_witness :
  (0 < 2)%R /\ (0 < 1000)%R /\
  let pot := mk_BoxPotential 2%R 0%R 1000%R in
  (forall x, Rabs (x - 0) <= 2 / 2 ->
     potential_call pot x = 0 /\ potential_force pot x = 0)%R /\
  (potential_call pot (0 + 2 / 2) = 0 /\ potential_force pot (0 + 2 / 2) = 0 /\
   potential_call pot (0 - 2 / 2) = 0 /\ potential_force pot (0 - 2 / 2) = 0)%R /\
  (forall x, 2 / 2 < Rabs (x - 0) ->
     0 < potential_call pot x /\
     (0 < x -> potential_force pot x < 0) /\
     (x < 0 -> 0 < potential_force pot x))%R.
Proof.
  assert (Hw : (0 < 2)%R) by lra. assert (Hs : (0 < 1000)%R) by lra.
  split; [exact Hw|]. split; [exact Hs|].
  exact (box_potential_boundary 2%R 0%R 1000%R Hw Hs).
Defined.

Section HarmonicEnergy.
Local Open Scope R_scope.

(** Velocity Verlet in a harmonic field keeps the modified energy
    [0.5 m v^2 + 0.5 k (1 - k dt^2 / (4 m)) (x - c)^2] exactly. *)
Lemma harmonic_kdk_invariant (k c m dt x v : R) :
  m <> 0 ->
  let F := fun y => - k * (y - c) in
  let v_half := v + F x / m * (dt / 2) in
  let x' := x + v_half * dt in
  let v' := v_half + F x' / m * (dt / 2) in
  0.5 * m * v' ^ 2 + 0.5 * k * (1 - k * dt ^ 2 / (4 * m)) * (x' - c) ^ 2 =
  0.5 * m * v ^ 2 + 0.5 * k * (1 - k * dt ^ 2 / (4 * m)) * (x - c) ^ 2.
Proof. intros Hm F v_half x' v'. unfold v', x', v_half, F. field. exact Hm. Qed.

(** Part of C1, the harmonic field in exact arithmetic: with [k > 0],
    [m > 0] and [eps = k dt^2 / (4 m) < 1], every recorded total energy is
    within [eps / (1 - eps) * total[0]] of [total[0]], whatever the
    duration: the energy error oscillates and does not drift.  For
    [eps < 1/101] the bound is below 1% of [total[0]]. *)
Lemma harmonic_energy_bounded (fuel : nat) (p : Particle1D)
    (k c duration dt : R) (p' : Particle1D) (tr : Trajectory) :
  0 < k -> 0 < mass p -> k * dt ^ 2 / (4 * mass p) < 1 ->
  simulate_particle fuel p (HarmonicPotential k c) duration dt = Finished (p', tr) ->
  let eps := k * dt ^ 2 / (4 * mass p) in
  forall i, (i < length (total (energies tr)))%nat ->
  Rabs (nth i (total (energies tr)) 0 - nth 0 (total (energies tr)) 0)
    <= eps / (1 - eps) * nth 0 (total (energies tr)) 0.
Proof.
  intros Hk Hm Heps E eps.
  set (m := mass p).
  set (I := fun x v => 0.5 * m * v ^ 2 + 0.5 * k * (1 - eps) * (x - c) ^ 2).
  set (I0 := I (position p) (velocity p)).
  destruct (simulate_invariant
    (fun s => forall i, (i < length (times s))%nat ->
       nth i (total_e s) 0 = 0.5 * m * nth i (velocities s) 0 ^ 2
                             + 0.5 * k * (nth i (positions s) 0 - c) ^ 2 /\
       I (nth i (positions s) 0) (nth i (velocities s) 0) = I0)
    fuel p (HarmonicPotential k c) duration dt p' tr)
    as (s & HP & Inv & _ & -> & ->).
  { intros s1 s2 H1 I1 _ B i Hi.
    destruct (loop_body_shape _ _ _ _ B) as (_ & _ & Ts & Ps & Vs & _).
    destruct (loop_body_kdk _ _ _ _ B) as (_ & P2 & V2 & M2).
    pose proof (loop_body_total _ _ _ _ B) as Es.
    destruct I1 as (M1 & Hne & L1 & L2 & _ & _ & L5 & _ & LP & LV).
    rewrite Ts, length_app in Hi. simpl length in Hi.
    rewrite Ps, Vs, Es.
    destruct (Nat.lt_ge_cases i (length (times s1))) as [Hlt|Hge].
    - rewrite !app_nth1 by lia. apply H1. exact Hlt.
    - assert (Hin : i = length (times s1)) by lia.
      rewrite (nth_snoc_at (positions s1) _ _ i) by lia.
      rewrite (nth_snoc_at (velocities s1) _ _ i) by lia.
      rewrite (nth_snoc_at (total_e s1) _ _ i) by lia.
      split.
      + unfold kinetic. simpl. rewrite M2, M1. fold m. ring.
      + assert (Hprev : I (position (particle s1)) (velocity (particle s1)) = I0).
        { change f0 with 0 in LP, LV.
          rewrite <- LP, <- LV.
          assert (NP : positions s1 <> [])
            by (intro Hn; rewrite Hn in L1; simpl in L1;
                destruct (times s1); [contradiction|discriminate]).
          assert (NV : velocities s1 <> [])
            by (intro Hn; rewrite Hn in L2; simpl in L2;
                destruct (times s1); [contradiction|discriminate]).
          rewrite !last_nth by assumption. rewrite L1, L2.
          apply H1. destruct (times s1); [contradiction|simpl; lia]. }
        rewrite <- Hprev. rewrite P2, V2. simpl. rewrite M1. fold m.
        unfold I, eps. fold m.
        apply (harmonic_kdk_invariant k c m dt); unfold m; lra. }
  { intros i Hi. simpl in Hi. destruct i as [|i]; [|lia]. simpl.
    split; [reflexivity|reflexivity]. }
  { exact E. }
  destruct Inv as (_ & Hne & L1 & L2 & _ & _ & L5 & _).
  intros i Hi. simpl in Hi |- *. rewrite L5 in Hi.
  assert (H0len : (0 < length (times s))%nat) by lia.
  destruct (HP i Hi) as [Ei Ii]. destruct (HP 0%nat H0len) as [E0 I00].
  rewrite Ei, E0.
  set (vi := nth i (velocities s) 0) in *. set (xi := nth i (positions s) 0) in *.
  set (v0 := nth 0 (velocities s) 0) in *. set (x0 := nth 0 (positions s) 0) in *.
  unfold I in Ii, I00.
  assert (Hm' : 0 < m) by exact Hm.
  assert (He0 : 0 <= eps) by (unfold eps; apply Rmult_le_pos;
    [apply Rmult_le_pos; [lra|apply pow2_ge_0]|apply Rlt_le, Rinv_0_lt_compat; lra]).
  set (a := 0.5 * k * (xi - c) ^ 2). set (b := 0.5 * k * (x0 - c) ^ 2).
  set (T := 0.5 * m * vi ^ 2). set (T0 := 0.5 * m * v0 ^ 2).
  assert (Ha : 0 <= a) by (unfold a; apply Rmult_le_pos; [lra|apply pow2_ge_0]).
  assert (Hb : 0 <= b) by (unfold b; apply Rmult_le_pos; [lra|apply pow2_ge_0]).
  assert (HT : 0 <= T) by (unfold T; apply Rmult_le_pos; [lra|apply pow2_ge_0]).
  assert (HT0 : 0 <= T0) by (unfold T0; apply Rmult_le_pos; [lra|apply pow2_ge_0]).
  assert (Hi1 : T + (1 - eps) * a = I0) by (rewrite <- Ii; unfold T, a; ring).
  assert (Hi0 : T0 + (1 - eps) * b = I0) by (rewrite <- I00; unfold T0, b; ring).
  clearbody a b T T0 I0.
  replace (T + a - (T0 + b)) with (eps * (a - b))
    by (transitivity ((T + (1 - eps) * a) - (T0 + (1 - eps) * b) + eps * (a - b));
        [rewrite Hi1, Hi0; ring | ring]).
  assert (H1e : 0 < 1 - eps) by (unfold eps, m; lra).
  apply (Rmult_le_reg_r (1 - eps)); [exact H1e|].
  replace (eps / (1 - eps) * (T0 + b) * (1 - eps)) with (eps * (T0 + b))
    by (field; lra).
  destruct (Rle_dec b a).
  - rewrite Rabs_right by nra. nra.
  - rewrite Rabs_left1 by nra. nra.
Qed.

End HarmonicEnergy.

Lemma harmonic_energy_bounded_witness :
  simulate_particle 3 (mk_particle 1%R (1/2)%R 1%R)
    (HarmonicPotential 1%R 0%R) 1%R (1/2)%R = Finished run_harmonic /\
  (2 < length (total (energies (snd run_harmonic))))%nat /\
  (Rabs (nth 2 (total (energies (snd run_harmonic))) 0
         - nth 0 (total (energies (snd run_harmonic))) 0)
   <= (1 * (1/2) ^ 2 / (4 * 1)) / (1 - 1 * (1/2) ^ 2 / (4 * 1))
      * nth 0 (total (energies (snd run_harmonic))) 0)%R.
Proof.
  assert (E : simulate_particle 3 (mk_particle 1%R (1/2)%R 1%R)
                (HarmonicPotential 1%R 0%R) 1%R (1/2)%R = Finished run_harmonic)
    by (unfold run_harmonic, finished_or; R_run; reflexivity).
  assert (L : (2 < length (total (energies (snd run_harmonic))))%nat)
    by (unfold run_harmonic, finished_or; R_run; simpl; lia).
  split; [exact E|]. split; [exact L|].
  rewrite (surjective_pairing run_harmonic) in E.
  exact (harmonic_energy_bounded 3 (mk_particle 1%R (1/2)%R 1%R) 1%R 0%R 1%R (1/2)%R
           _ _ ltac:(lra) ltac:(simpl; lra) ltac:(simpl; lra) E 2 L).
Defined.

(** ** Further properties of the code *)

(** Case analysis on every real comparison of the goal. *)
Ltac R_cases :=
  repeat match goal with
  | |- context [Rlt_dec ?a ?b] => destruct (Rlt_dec a b)
  | |- context [Rle_dec ?a ?b] => destruct (Rle_dec a b)
  end.

(** Unfolds the box potential and the real instance, keeping [pow]. *)
Ltac box_unfold :=
  cbv beta iota zeta delta [potential_call potential_force mk_BoxPotential np_sign
    fsub fabs fleb fltb fmul fhalf f0 f1 fopp fdiv f2 fpow R_arith].

Section GenericExtra.
Context {A : Type} `{Arith A}.

(** The recorded times are the values the loop condition saw: every time
    but the last passed [time < duration], and the last one failed it.  This
    holds in every arithmetic, binary64 included. *)
Theorem simulate_particle_times_exit (fuel : nat) (p : @Particle1D A) (pot : Potential)
    (duration dt : A) (p' : Particle1D) (tr : Trajectory) :
  simulate_particle fuel p pot duration dt = Finished (p', tr) ->
  (forall i, (S i < length (tr_times tr))%nat ->
     fltb (nth i (tr_times tr) f0) duration = true) /\
  fltb (last (tr_times tr) f0) duration = false.
Proof.
  intro E.
  destruct (simulate_invariant
    (fun s => forall i, (S i < length (times s))%nat ->
       fltb (nth i (times s) f0) duration = true)
    fuel p pot duration dt p' tr) as (s & HP & Inv & HC & _ & ->).
  { intros s1 s2 H1 I1 C B i Hi.
    destruct (loop_body_shape _ _ _ _ B) as (_ & _ & Ts & _).
    destruct I1 as (_ & Hne & _ & _ & _ & _ & _ & LT & _).
    rewrite Ts, length_app in Hi. simpl length in Hi. rewrite Ts.
    destruct (Nat.lt_ge_cases (S i) (length (times s1))) as [Hlt|Hge].
    - rewrite app_nth1 by lia. apply H1. exact Hlt.
    - replace i with (length (times s1) - 1)%nat by lia.
      rewrite (nth_snoc_before (times s1) _ _ (length (times s1))) by auto.
      rewrite LT. exact C. }
  { intros i Hi. simpl in Hi. lia. }
  { exact E. }
  split; [exact HP|].
  destruct Inv as (_ & _ & _ & _ & _ & _ & _ & LT & _). simpl. rewrite LT. exact HC.
Qed.

(** The energy arrays, sample by sample. *)
Lemma simulate_energy_records (fuel : nat) (p : @Particle1D A) (pot : Potential)
    (duration dt : A) (p' : Particle1D) (tr : Trajectory) :
  simulate_particle fuel p pot duration dt = Finished (p', tr) ->
  forall i, (i < length (tr_times tr))%nat ->
  nth i (kinetic_e (energies tr)) f0 =
    fmul (fmul fhalf (mass p)) (fpow (nth i (tr_velocities tr) f0) 2) /\
  nth i (potential_e (energies tr)) f0 = potential_call pot (nth i (tr_positions tr) f0) /\
  nth i (total (energies tr)) f0 =
    fadd (nth i (kinetic_e (energies tr)) f0) (nth i (potential_e (energies tr)) f0).
Proof.
  intro E.
  destruct (simulate_invariant
    (fun s => forall i, (i < length (times s))%nat ->
       nth i (ke s) f0 = fmul (fmul fhalf (mass p)) (fpow (nth i (velocities s) f0) 2) /\
       nth i (pe s) f0 = potential_call pot (nth i (positions s) f0) /\
       nth i (total_e s) f0 = fadd (nth i (ke s) f0) (nth i (pe s) f0))
    fuel p pot duration dt p' tr) as (s & HP & _ & _ & _ & ->).
  { intros s1 s2 H1 I1 _ B i Hi.
    destruct (loop_body_shape _ _ _ _ B) as (M2 & _ & Ts & Ps & Vs & _).
    destruct (loop_body_energies _ _ _ _ B) as [Ks Us].
    pose proof (loop_body_total _ _ _ _ B) as Es.
    destruct I1 as (M1 & _ & L1 & L2 & L3 & L4 & L5 & _).
    rewrite Ts, length_app in Hi. simpl in Hi.
    rewrite Ps, Vs, Ks, Us, Es.
    destruct (Nat.lt_ge_cases i (length (times s1))) as [Hlt|Hge].
    - rewrite !app_nth1 by lia. apply H1. exact Hlt.
    - assert (Hi' : i = length (times s1)) by lia.
      rewrite !(nth_snoc_at _ _ _ i) by lia.
      unfold kinetic. rewrite M2, M1. repeat split; reflexivity. }
  { intros i Hi. simpl in Hi. destruct i; [|lia]. simpl. auto. }
  { exact E. }
  exact HP.
Qed.

(** The particle object the run leaves behind: when no iteration ran it is
    the caller's particle untouched; otherwise its [acceleration] is the force
    at its final position divided by its mass (set by the last
    [apply_force]).  In every arithmetic. *)
Theorem simulate_particle_final_acceleration (fuel : nat) (p : @Particle1D A) (pot : Potential)
    (duration dt : A) (p' : Particle1D) (tr : Trajectory) :
  simulate_particle fuel p pot duration dt = Finished (p', tr) ->
  (length (tr_times tr) = 1%nat /\ p' = p) \/
  acceleration p' = fdiv (potential_force pot (position p')) (mass p).
Proof.
  intro E.
  destruct (simulate_invariant
    (fun s => (length (times s) = 1%nat /\ particle s = p) \/
       acceleration (particle s) = fdiv (potential_force pot (position (particle s))) (mass p))
    fuel p pot duration dt p' tr) as (s & HP & _ & _ & -> & ->).
  { intros s1 s2 _ I1 _ B. right.
    destruct I1 as (M1 & _).
    destruct (loop_body_spec _ _ _ _ B) as (p1 & p4 & E1 & E4 & ->). simpl.
    apply apply_force_mass in E1. apply apply_force_mass in E4.
    destruct E1 as (MA & _). destruct E4 as (MB & PB & _ & AB). simpl in MB, PB, AB.
    rewrite AB, PB, MA, M1. reflexivity. }
  { left. simpl. auto. }
  { exact E. }
  exact HP.
Qed.

End GenericExtra.

Section ExtraExact.
Local Open Scope R_scope.

(** A function whose increments are [l h] up to [M h^2] has derivative [l]. *)
Lemma quad_bound_derivable (f : R -> R) (x l M : R) :
  0 <= M ->
  (forall h, Rabs h <= 1 -> Rabs (f (x + h) - f x - l * h) <= M * h ^ 2) ->
  derivable_pt_lim f x l.
Proof.
  intros HM Hb eps Heps.
  assert (Hd : 0 < Rmin 1 (eps / (M + 1)))
    by (apply Rmin_pos; [lra|apply Rdiv_lt_0_compat; lra]).
  exists (mkposreal _ Hd). intros h Hh0 Hh. simpl in Hh.
  pose proof (Rmin_l 1 (eps / (M + 1))) as L1.
  pose proof (Rmin_r 1 (eps / (M + 1))) as L2.
  specialize (Hb h ltac:(lra)).
  replace ((f (x + h) - f x) / h - l) with ((f (x + h) - f x - l * h) * / h)
    by (field; exact Hh0).
  rewrite Rabs_mult, Rabs_inv.
  pose proof (Rabs_pos_lt h Hh0) as Hp.
  rewrite <- pow2_abs in Hb.
  apply (Rmult_le_compat_r (/ Rabs h)) in Hb;
    [|apply Rlt_le, Rinv_0_lt_compat; exact Hp].
  eapply Rle_lt_trans; [exact Hb|].
  replace (M * Rabs h ^ 2 * / Rabs h) with (M * Rabs h) by (field; lra).
  assert (Rabs h < eps / (M + 1)) by lra.
  assert (eps / (M + 1) * (M + 1) = eps) by (field; lra).
  nra.
Qed.

Lemma box_scale (w c s y : R) :
  potential_call (mk_BoxPotential w c s) y = s * potential_call (mk_BoxPotential w c 1) y /\
  potential_force (mk_BoxPotential w c s) y = s * potential_force (mk_BoxPotential w c 1) y.
Proof. box_unfold. split; R_cases; ring. Qed.

Lemma box_unit_quad (w c x h : R) : 0 <= w ->
  Rabs (potential_call (mk_BoxPotential w c 1) (x + h)
        - potential_call (mk_BoxPotential w c 1) x
        - - potential_force (mk_BoxPotential w c 1) x * h) <= 0.5 * h ^ 2.
Proof.
  intro Hw. box_unfold. R_cases.
  all: repeat match goal with H : context [Rabs _] |- _ => revert H end.
  all: unfold Rabs; destruct (Rcase_abs (x + h - c)), (Rcase_abs (x - c)); intros.
  all: apply Rabs_le; split; nra.
Qed.

(** For a box of width [w >= 0] (any center and stiffness), the potential
    energy is differentiable everywhere, the two wall points included, and
    [force(x) = -dV/dx]: the soft walls join the flat interior smoothly. *)
Theorem box_force_is_minus_derivative (w c s x : R) : 0 <= w ->
  derivable_pt_lim (potential_call (mk_BoxPotential w c s)) x
    (- potential_force (mk_BoxPotential w c s) x).
Proof.
  intro Hw.
  apply (quad_bound_derivable _ _ _ (0.5 * Rabs s)); [pose proof (Rabs_pos s); lra|].
  intros h _.
  rewrite !(proj1 (box_scale w c s _)), (proj2 (box_scale w c s _)).
  pose proof (box_unit_quad w c x h Hw) as B.
  match goal with
  | B : Rabs ?E <= _ |- _ =>
      replace (s * potential_call (mk_BoxPotential w c 1) (x + h)
               - s * potential_call (mk_BoxPotential w c 1) x
               - - (s * potential_force (mk_BoxPotential w c 1) x) * h)
        with (s * E) by ring
  end.
  rewrite Rabs_mult. pose proof (Rabs_pos s).
  pose proof (Rabs_pos (potential_call (mk_BoxPotential w c 1) (x + h)
        - potential_call (mk_BoxPotential w c 1) x
        - - potential_force (mk_BoxPotential w c 1) x * h)).
  nra.
Qed.

Lemma box_negative_width_value (w c s y : R) : w < 0 ->
  potential_call (mk_BoxPotential w c s) (c + y) = 0.5 * s * (Rabs y - w / 2) ^ 2.
Proof.
  intro Hw.
  cbv beta iota zeta delta [potential_call mk_BoxPotential fsub fabs fleb fmul fhalf f0 fdiv f2 fpow R_arith].
  replace (c + y - c) with y by ring.
  destruct (Rle_dec (Rabs y) (w / 2)) as [Hle|_]; [|reflexivity].
  pose proof (Rabs_pos y). lra.
Qed.

(** For a box of negative width and nonzero stiffness, the force at the
    center is 0 but the potential energy has a kink there: it has no
    derivative at [c], so [force = -dV/dx] fails at the center. *)
Theorem box_negative_width_kink (w c s : R) : w < 0 -> s <> 0 ->
  potential_force (mk_BoxPotential w c s) c = 0 /\
  forall l, ~ derivable_pt_lim (potential_call (mk_BoxPotential w c s)) c l.
Proof.
  intros Hw Hs. split.
  - cbv beta iota zeta delta [potential_force mk_BoxPotential np_sign fsub fabs fleb fltb fmul fopp f0 f1 fdiv f2 R_arith].
    replace (c - c) with 0 by ring. rewrite Rabs_R0.
    R_cases; try lra; ring.
  - intros l D.
    assert (Hsw : 0 < Rabs (s * w) / 2)
      by (apply Rdiv_lt_0_compat; [apply Rabs_pos_lt; intro E;
          apply Rmult_integral in E; destruct E; [contradiction|lra]|lra]).
    destruct (D _ Hsw) as [delta Hd].
    pose proof (cond_pos delta) as Hdp.
    set (h := delta / 2).
    assert (Hh : 0 < h) by (unfold h; lra).
    assert (Hhd : Rabs h < delta) by (rewrite Rabs_right by lra; unfold h; lra).
    assert (Hhd' : Rabs (- h) < delta) by (rewrite Rabs_Ropp; exact Hhd).
    pose proof (Hd h ltac:(lra) Hhd) as H1.
    pose proof (Hd (- h) ltac:(lra) Hhd') as H2.
    rewrite (box_negative_width_value w c s h Hw) in H1.
    rewrite (box_negative_width_value w c s (- h) Hw) in H2.
    pose proof (box_negative_width_value w c s 0 Hw) as H0.
    rewrite Rplus_0_r in H0. rewrite H0 in H1, H2.
    rewrite Rabs_R0, Rabs_Ropp, (Rabs_right h) in * by lra.
    replace ((0.5 * s * (h - w / 2) ^ 2 - 0.5 * s * (0 - w / 2) ^ 2) / h)
      with (0.5 * s * (h - w)) in H1 by (replace 0.5 with (/ 2) by lra; field; lra).
    replace ((0.5 * s * (h - w / 2) ^ 2 - 0.5 * s * (0 - w / 2) ^ 2) / - h)
      with (- (0.5 * s * (h - w))) in H2 by (replace 0.5 with (/ 2) by lra; field; lra).
    pose proof (Rabs_triang (0.5 * s * (h - w) - l) (l - - (0.5 * s * (h - w)))) as T.
    replace (0.5 * s * (h - w) - l + (l - - (0.5 * s * (h - w)))) with (s * (h - w)) in T
      by (replace 0.5 with (/ 2) by lra; field).
    rewrite <- Rabs_Ropp in H2.
    replace (- (- (0.5 * s * (h - w)) - l)) with (l - - (0.5 * s * (h - w))) in H2 by ring.
    rewrite !Rabs_mult in *. rewrite (Rabs_right (h - w)) in T by lra.
    rewrite (Rabs_left w) in H1, H2 by lra.
    assert (Hs' : 0 < Rabs s) by (apply Rabs_pos_lt; exact Hs).
    nra.
Qed.

(** [force(x) = -dV/dx] at every [x] for [NoPotential], and for the
    harmonic and quartic potentials with any coefficient and center. *)
Theorem smooth_force_is_minus_derivative (k a c x : R) :
  derivable_pt_lim (potential_call NoPotential) x (- potential_force NoPotential x) /\
  derivable_pt_lim (potential_call (HarmonicPotential k c)) x
    (- potential_force (HarmonicPotential k c) x) /\
  derivable_pt_lim (potential_call (QuarticPotential a c)) x
    (- potential_force (QuarticPotential a c) x).
Proof.
  split; [|split].
  - apply (quad_bound_derivable _ _ _ 0); [lra|]. intros h _. simpl.
    replace (0 - 0 - - 0 * h) with 0 by ring. rewrite Rabs_R0. lra.
  - apply (quad_bound_derivable _ _ _ (0.5 * Rabs k)); [pose proof (Rabs_pos k); lra|].
    intros h _. simpl.
    replace (0.5 * k * ((x + h - c) * ((x + h - c) * 1)) - 0.5 * k * ((x - c) * ((x - c) * 1))
             - - (- k * (x - c)) * h) with ((0.5 * k) * h ^ 2)
      by (replace 0.5 with (/ 2) by lra; field).
    rewrite Rabs_mult, (Rabs_right (h ^ 2)) by (apply Rle_ge, pow2_ge_0).
    rewrite Rabs_mult, (Rabs_right 0.5) by lra. lra.
  - set (d := x - c).
    apply (quad_bound_derivable _ _ _ (Rabs a * (6 * d ^ 2 + 4 * Rabs d + 1)));
      [pose proof (Rabs_pos a); pose proof (Rabs_pos d); pose proof (pow2_ge_0 d); nra|].
    intros h Hh.
    cbv beta iota zeta delta [potential_call potential_force fsub fmul fopp fpow f4 R_arith].
    match goal with
    | |- Rabs ?E <= _ =>
        replace E with (a * h ^ 2 * (6 * d ^ 2 + 4 * d * h + h ^ 2)) by (unfold d; ring)
    end.
    rewrite !Rabs_mult, (Rabs_right (h ^ 2)) by (apply Rle_ge, pow2_ge_0).
    assert (B : Rabs (6 * d ^ 2 + 4 * d * h + h ^ 2) <= 6 * d ^ 2 + 4 * Rabs d + 1).
    { revert Hh. unfold Rabs at 1 3. destruct (Rcase_abs h), (Rcase_abs d); intro Hh;
      apply Rabs_le; split; nra. }
    pose proof (Rabs_pos a). pose proof (pow2_ge_0 h).
    pose proof (Rabs_pos (6 * d ^ 2 + 4 * d * h + h ^ 2)).
    assert (Rabs a * h ^ 2 * Rabs (6 * d ^ 2 + 4 * d * h + h ^ 2) <=
            Rabs a * h ^ 2 * (6 * d ^ 2 + 4 * Rabs d + 1))
      by (apply Rmult_le_compat_l; [nra|exact B]).
    nra.
Qed.

Lemma pot_reflect (pot : @Potential R) (c x : R) : pot_centered pot c ->
  potential_call pot (2 * c - x) = potential_call pot x /\
  potential_force pot (2 * c - x) = - potential_force pot x.
Proof.
  destruct pot as [|k c'|a c'|w c' s hw]; simpl; intro Hc; try subst c'.
  - split; ring.
  - split; ring.
  - split; ring.
  - replace (2 * c - x - c) with (- (x - c)) by ring. rewrite Rabs_Ropp.
    unfold np_sign; simpl.
    split; R_cases; try (exfalso; lra); ring.
Qed.

(** The box potential is symmetric about its center and its force is odd:
    [V(c + d) = V(c - d)] and [force(c + d) = -force(c - d)], for any width,
    stiffness and stored half width. *)
Theorem box_potential_symmetry (w c s hw d : R) :
  potential_call (BoxPotential w c s hw) (c + d) =
    potential_call (BoxPotential w c s hw) (c - d) /\
  potential_force (BoxPotential w c s hw) (c + d) =
    - potential_force (BoxPotential w c s hw) (c - d).
Proof.
  replace (c + d) with (2 * c - (c - d)) by ring.
  destruct (pot_reflect (BoxPotential w c s hw) c (c - d) eq_refl) as [V F].
  rewrite V, F. split; ring.
Qed.

Lemma force_is_np_reflect (pot : @Potential R) (c x : R) (b : bool) :
  pot_centered pot c -> force_is_np pot (2 * c - x) b = force_is_np pot x b.
Proof.
  destruct pot as [|k c'|a c'|w c' s hw]; simpl; intro Hc; try reflexivity.
  subst c'. replace (2 * c - x - c) with (- (x - c)) by ring.
  rewrite Rabs_Ropp. reflexivity.
Qed.

(** [apply_force] in exact arithmetic. *)
Lemma R_apply_force (p : @Particle1D R) (F : R * bool) :
  apply_force p F =
  if Req_dec_T (mass p) 0 then inl (if snd F then NoExactValue else ZeroDivisionError)
  else inr (set_acceleration p (fst F / mass p) (snd F)).
Proof.
  unfold apply_force. simpl.
  destruct (Req_dec_T (mass p) 0); [destruct (snd F)|]; reflexivity.
Qed.

Lemma loop_body_reflect (pot : @Potential R) (dt c : R) (s : LoopState) :
  pot_centered pot c ->
  loop_body pot dt (reflect_state c s) =
  match loop_body pot dt s with
  | inl e => inl e
  | inr s' => inr (reflect_state c s')
  end.
Proof.
  intro Hc.
  assert (HV : forall x, potential_call pot (2 * c - x) = potential_call pot x)
    by (intro x; exact (proj1 (pot_reflect pot c x Hc))).
  assert (HF : forall x, potential_force pot (2 * c - x) = - potential_force pot x)
    by (intro x; exact (proj2 (pot_reflect pot c x Hc))).
  assert (HN : forall x b, force_is_np pot (2 * c - x) b = force_is_np pot x b)
    by (intros x b; exact (force_is_np_reflect pot c x b Hc)).
  rewrite !(loop_body_no_overflow R_no_overflow). cbv beta zeta.
  change (particle (reflect_state c s)) with (reflect_particle c (particle s)).
  rewrite (R_apply_force (reflect_particle c (particle s))),
          (R_apply_force (particle s)).
  cbn [mass position position_np reflect_particle fst snd].
  rewrite HN.
  destruct (Req_dec_T (mass (particle s)) 0) as [Hm|Hm]; [reflexivity|].
  rewrite !R_apply_force. cbn [mass position position_np velocity fst snd
    set_acceleration update_position update_velocity reflect_particle].
  destruct (Req_dec_T (mass (particle s)) 0) as [Hm'|_]; [contradiction|].
  simpl. rewrite HF.
  set (x := position (particle s)). set (v := velocity (particle s)).
  set (m := mass (particle s)). set (F0 := potential_force pot x).
  replace (2 * c - x + (- v + - F0 / m * (dt / 2)) * dt)
    with (2 * c - (x + (v + F0 / m * (dt / 2)) * dt)) by (unfold Rdiv; ring).
  rewrite HF, HV, HN.
  unfold reflect_state, reflect_particle, update_velocity, kinetic. simpl.
  rewrite !map_app. simpl.
  f_equal. f_equal;
    [f_equal; unfold Rdiv; ring|f_equal; f_equal; unfold Rdiv; ring ..].
Qed.

Lemma while_loop_reflect (fuel : nat) (pot : @Potential R) (duration dt c : R)
    (s : LoopState) :
  pot_centered pot c ->
  while_loop fuel pot duration dt (reflect_state c s) =
  match while_loop fuel pot duration dt s with
  | Finished s' => Finished (reflect_state c s')
  | Raised e => Raised e
  | OutOfFuel => OutOfFuel
  end.
Proof.
  intro Hc. revert s. induction fuel as [|fuel IH]; intro s; [reflexivity|].
  rewrite !while_loop_S. change (time (reflect_state c s)) with (time s).
  destruct (fltb (time s) duration); [|reflexivity].
  rewrite (loop_body_reflect pot dt c s Hc).
  destruct (loop_body pot dt s); [reflexivity|apply IH].
Qed.

Lemma first_sample_reflect (p : @Particle1D R) (pot : Potential) (c : R) :
  pot_centered pot c ->
  first_sample (reflect_particle c p) pot = reflect_state c (first_sample p pot).
Proof.
  intro Hc. unfold first_sample, reflect_state, reflect_particle, kinetic. simpl.
  rewrite (proj1 (pot_reflect pot c (position p) Hc)).
  f_equal; try (f_equal; ring).
Qed.

(** Mirror symmetry of whole runs: in a potential centered at [c] (or with
    no potential), the run from the particle reflected about [c] has the same
    outcome, with every position reflected ([2 c - x]), every velocity
    negated, and the same times and energies. *)
Theorem simulate_particle_mirror (fuel : nat) (p : @Particle1D R)
    (pot : Potential) (duration dt c : R) :
  pot_centered pot c ->
  simulate_particle fuel (reflect_particle c p) pot duration dt =
  match simulate_particle fuel p pot duration dt with
  | Finished (p', tr) => Finished (reflect_particle c p', reflect_trajectory c tr)
  | Raised e => Raised e
  | OutOfFuel => OutOfFuel
  end.
Proof.
  intro Hc. unfold simulate_particle. rewrite !R_init_state.
  rewrite (first_sample_reflect p pot c Hc), (while_loop_reflect fuel pot duration dt c _ Hc).
  destruct (while_loop fuel pot duration dt (first_sample p pot)); reflexivity.
Qed.

(** Velocity Verlet is time reversible: after one iteration from [s], an
    iteration started at the reached position with the velocity reversed
    (and the same mass) returns to the starting position with the starting
    velocity reversed. *)
Theorem loop_body_reversible (pot : @Potential R) (dt : R) (s s' s2 : LoopState) :
  loop_body pot dt s = inr s' ->
  position (particle s2) = position (particle s') ->
  velocity (particle s2) = - velocity (particle s') ->
  mass (particle s2) = mass (particle s) ->
  exists s3, loop_body pot dt s2 = inr s3 /\
    position (particle s3) = position (particle s) /\
    velocity (particle s3) = - velocity (particle s).
Proof.
  intros B HX HV HM.
  destruct (loop_body_kdk _ _ _ _ B) as (_ & X1 & V1 & M1).
  assert (Hm2 : feqb (mass (particle s2)) f0 = false)
    by (apply R_feqb_false; rewrite HM; exact (R_loop_body_mass _ _ _ _ B)).
  destruct (loop_body_ok pot dt s2 R_no_overflow Hm2) as [s3 B3].
  exists s3. split; [exact B3|].
  destruct (loop_body_kdk _ _ _ _ B3) as (_ & X3 & V3 & _).
  simpl in X1, V1, X3, V3.
  rewrite HM in X3, V3. rewrite HX, HV, V1, X1 in X3.
  set (m := mass (particle s)) in *.
  set (x := position (particle s)) in *. set (v := velocity (particle s)) in *.
  set (F := potential_force pot) in *.
  assert (E : position (particle s3) = x) by (rewrite X3; unfold Rdiv; ring).
  split; [exact E|].
  rewrite V3, HX, HV, V1, X1. 
  replace (x + (v + F x / m * (dt / 2)) * dt +
     (- (v + F x / m * (dt / 2) + F (x + (v + F x / m * (dt / 2)) * dt) / m * (dt / 2)) +
      F (x + (v + F x / m * (dt / 2)) * dt) / m * (dt / 2)) * dt) with x
    by (unfold Rdiv; ring).
  unfold Rdiv; ring.
Qed.

(** The recorded times are [times[i] = i * dt] in exact arithmetic. *)
Theorem simulate_particle_times_exact (fuel : nat) (p : @Particle1D R) (pot : Potential)
    (duration dt : R) (p' : Particle1D) (tr : Trajectory) :
  simulate_particle fuel p pot duration dt = Finished (p', tr) ->
  forall i, (i < length (tr_times tr))%nat -> nth i (tr_times tr) 0 = INR i * dt.
Proof.
  intro E.
  destruct (simulate_invariant
    (fun s => forall i, (i < length (times s))%nat -> nth i (times s) 0 = INR i * dt)
    fuel p pot duration dt p' tr) as (s & HP & _ & _ & _ & ->).
  { intros s1 s2 H1 I1 _ B i Hi.
    destruct (loop_body_shape _ _ _ _ B) as (_ & Tm & Ts & _).
    destruct I1 as (_ & Hne & _ & _ & _ & _ & _ & LT & _).
    rewrite Ts, length_app in Hi. simpl length in Hi. rewrite Ts.
    destruct (Nat.lt_ge_cases i (length (times s1))) as [Hlt|Hge].
    - rewrite app_nth1 by lia. apply H1. exact Hlt.
    - assert (Hi' : i = length (times s1)) by lia.
      rewrite (nth_snoc_at _ _ _ i) by lia. rewrite Tm. simpl.
      change f0 with 0 in LT. rewrite <- LT, last_nth by exact Hne.
      assert (Hpos : (0 < length (times s1))%nat)
        by (destruct (times s1); [contradiction|simpl; lia]).
      rewrite H1 by lia. rewrite Hi'.
      replace (length (times s1)) with (S (length (times s1) - 1)) at 2 by lia.
      rewrite S_INR. ring. }
  { intros i Hi. simpl in Hi. destruct i; [|lia]. simpl. ring. }
  { exact E. }
  exact HP.
Qed.

(** A particle at rest where the force vanishes (the center of every
    potential, any point inside a box) never moves: every recorded position
    is the initial one, every velocity is 0, and the total energy is
    constant. *)
Theorem simulate_particle_at_rest (fuel : nat) (p : @Particle1D R) (pot : Potential)
    (duration dt : R) (p' : Particle1D) (tr : Trajectory) :
  potential_force pot (position p) = 0 -> velocity p = 0 ->
  simulate_particle fuel p pot duration dt = Finished (p', tr) ->
  position p' = position p /\ velocity p' = 0 /\
  forall i, (i < length (tr_times tr))%nat ->
    nth i (tr_positions tr) 0 = position p /\ nth i (tr_velocities tr) 0 = 0 /\
    nth i (total (energies tr)) 0 = nth 0 (total (energies tr)) 0.
Proof.
  intros HF HV E.
  set (e0 := fadd (kinetic p) (potential_call pot (position p))).
  destruct (simulate_invariant
    (fun s => position (particle s) = position p /\ velocity (particle s) = 0 /\
       forall i, (i < length (times s))%nat ->
       nth i (positions s) 0 = position p /\ nth i (velocities s) 0 = 0 /\
       nth i (total_e s) 0 = e0)
    fuel p pot duration dt p' tr) as (s & (HX & HV' & HP) & Inv & _ & -> & ->).
  { intros s1 s2 (X1 & V1 & H1) I1 _ B.
    destruct (loop_body_kdk _ _ _ _ B) as (Hm & X2 & V2 & M2).
    pose proof (loop_body_shape _ _ _ _ B) as (_ & _ & Ts & Ps & Vs & _).
    pose proof (loop_body_total _ _ _ _ B) as Es.
    destruct I1 as (M1 & _ & L1 & L2 & _ & _ & L5 & _).
    simpl in X2, V2. rewrite X1, V1, HF in X2.
    assert (X2' : position (particle s2) = position p) by (rewrite X2; unfold Rdiv; ring).
    rewrite X1, V1, HF in V2.
    assert (V2' : velocity (particle s2) = 0).
    { rewrite V2. replace (position p + (0 + 0 / mass (particle s1) * (dt / 2)) * dt)
        with (position p) by (unfold Rdiv; ring). rewrite HF. unfold Rdiv; ring. }
    split; [exact X2'|]. split; [exact V2'|].
    intros i Hi. rewrite Ts, length_app in Hi. simpl in Hi.
    rewrite Ps, Vs, Es.
    destruct (Nat.lt_ge_cases i (length (times s1))) as [Hlt|Hge].
    - rewrite !app_nth1 by lia. apply H1. exact Hlt.
    - rewrite !(nth_snoc_at _ _ _ i) by lia.
      split; [exact X2'|]. split; [exact V2'|].
      unfold e0, kinetic. simpl. rewrite M2, M1, X2', V2', HV. ring. }
  { split; [reflexivity|]. split; [exact HV|].
    intros i Hi. simpl in Hi. destruct i; [|lia]. simpl. auto. }
  { exact E. }
  split; [exact HX|]. split; [exact HV'|].
  destruct Inv as (_ & Hne & _).
  assert (H0 : (0 < length (times s))%nat)
    by (destruct (times s); [contradiction|simpl; lia]).
  intros i Hi. simpl in Hi |- *.
  destruct (HP i Hi) as (A1 & A2 & A3). destruct (HP 0%nat H0) as (_ & _ & B3).
  rewrite A3, B3. auto.
Qed.

Lemma potential_call_nonneg (pot : @Potential R) (x : R) :
  pot_nonneg pot -> 0 <= potential_call pot x.
Proof.
  destruct pot as [|k c|a c|w c s hw]; simpl; intro Hp.
  - lra.
  - pose proof (pow2_ge_0 (x - c)). nra.
  - replace ((x - c) ^ 4) with (((x - c) ^ 2) ^ 2) by ring.
    pose proof (pow2_ge_0 ((x - c) ^ 2)). nra.
  - destruct (Rle_dec (Rabs (x - c)) hw); simpl; [lra|].
    pose proof (pow2_ge_0 (Rabs (x - c) - hw)). nra.
Qed.

(** With a nonnegative mass and nonnegative field coefficients ([k], [a],
    [wall_stiffness]), every recorded kinetic, potential and total energy is
    nonnegative. *)
Theorem simulate_particle_energies_nonneg (fuel : nat) (p : @Particle1D R) (pot : Potential)
    (duration dt : R) (p' : Particle1D) (tr : Trajectory) :
  0 <= mass p -> pot_nonneg pot ->
  simulate_particle fuel p pot duration dt = Finished (p', tr) ->
  forall i, (i < length (tr_times tr))%nat ->
  0 <= nth i (kinetic_e (energies tr)) 0 /\
  0 <= nth i (potential_e (energies tr)) 0 /\
  0 <= nth i (total (energies tr)) 0.
Proof.
  intros Hm Hp E i Hi.
  destruct (simulate_energy_records _ _ _ _ _ _ _ E i Hi) as (K & U & T).
  simpl in K, U, T. rewrite T, K, U.
  pose proof (potential_call_nonneg pot (nth i (tr_positions tr) 0) Hp).
  pose proof (pow2_ge_0 (nth i (tr_velocities tr) 0)).
  assert (0 <= 0.5 * mass p * nth i (tr_velocities tr) 0 ^ 2) by nra.
  simpl in *. lra.
Qed.

Lemma fold_left_Rmin_le (t : list R) (x y : R) :
  In y (x :: t) -> fold_left Rmin t x <= y.
Proof.
  revert x y. induction t as [|a t IH]; intros x y Hy; simpl in *.
  - destruct Hy as [->|[]]. lra.
  - destruct Hy as [->|[->|Hy]].
    + eapply Rle_trans; [apply IH; left; reflexivity|apply Rmin_l].
    + eapply Rle_trans; [apply IH; left; reflexivity|apply Rmin_r].
    + apply IH. right. exact Hy.
Qed.

Lemma fold_left_Rmax_ge (t : list R) (x y : R) :
  In y (x :: t) -> y <= fold_left Rmax t x.
Proof.
  revert x y. induction t as [|a t IH]; intros x y Hy; simpl in *.
  - destruct Hy as [->|[]]. lra.
  - destruct Hy as [->|[->|Hy]].
    + eapply Rle_trans; [apply Rmax_l|apply IH; left; reflexivity].
    + eapply Rle_trans; [apply Rmax_r|apply IH; left; reflexivity].
    + apply IH. right. exact Hy.
Qed.

Lemma np_minimum_R (a b : R) : np_minimum a b = Rmin a b.
Proof.
  unfold np_minimum, Rmin. simpl.
  destruct (Req_dec_T a a); [|congruence]. destruct (Req_dec_T b b); [|congruence].
  simpl. destruct (Rle_dec a b); reflexivity.
Qed.

Lemma np_maximum_R (a b : R) : np_maximum a b = Rmax a b.
Proof.
  unfold np_maximum, Rmax. simpl.
  destruct (Req_dec_T a a); [|congruence]. destruct (Req_dec_T b b); [|congruence].
  simpl. destruct (Rle_dec b a), (Rle_dec a b); lra.
Qed.

Lemma fold_np_minimum_R (t : list R) (x : R) :
  fold_left np_minimum t x = fold_left Rmin t x.
Proof.
  revert x. induction t as [|a t IH]; intro x; simpl; [reflexivity|].
  rewrite np_minimum_R. apply IH.
Qed.

Lemma fold_np_maximum_R (t : list R) (x : R) :
  fold_left np_maximum t x = fold_left Rmax t x.
Proof.
  revert x. induction t as [|a t IH]; intro x; simpl; [reflexivity|].
  rewrite np_maximum_R. apply IH.
Qed.

(** [animate_particles]' axis range, in exact arithmetic:
    [positions.min()] raises on an empty array; otherwise
    [x_min <= x_max] and every position lies in [[x_min, x_max]], so the
    particle never leaves the drawn window. *)
Theorem animate_plot_range (positions : list R) :
  match plot_range positions with
  | None => positions = []
  | Some (x_min, x_max) =>
      x_min <= x_max /\ Forall (fun x => x_min <= x <= x_max) positions
  end.
Proof.
  destruct positions as [|x t]; [reflexivity|].
  unfold plot_range, np_min, np_max. rewrite fold_np_minimum_R, fold_np_maximum_R.
  simpl.
  pose proof (fold_left_Rmin_le t x x (or_introl eq_refl)) as L.
  pose proof (fold_left_Rmax_ge t x x (or_introl eq_refl)) as G.
  split; [lra|].
  apply Forall_forall. intros y Hy.
  pose proof (fold_left_Rmin_le t x y Hy). pose proof (fold_left_Rmax_ge t x y Hy).
  lra.
Qed.

(** [animate_particles]' [update(frame)]: for every frame of
    [range(0, len(times), 5)] (with as many positions as times), the frame
    indexes [positions], the trail arrays passed to [set_data] have equal
    lengths, between 1 and 101, and the trail ends at the current position. *)
Theorem animate_trail (times positions : list R) (frame : nat) :
  length positions = length times -> In frame (frames (length times)) ->
  let (xs, ys) := trail_data positions frame in
  (frame < length positions)%nat /\ length xs = length ys /\
  (1 <= length xs <= 101)%nat /\ last xs 0 = nth frame positions 0.
Proof.
  intros HL Hin. unfold frames in Hin.
  apply in_map_iff in Hin. destruct Hin as (j & <- & Hj). apply in_seq in Hj.
  pose proof (Nat.Div0.mul_div_le (length times + 4) 5) as Hd.
  assert (Hf : (5 * j < length positions)%nat) by lia.
  unfold trail_data, py_slice.
  set (ts := Z.to_nat (Z.max 0 (Z.of_nat (5 * j) - 100))).
  assert (Hts : ts = (5 * j - 100)%nat) by (unfold ts; lia).
  assert (Hys : Z.to_nat (Z.of_nat (5 * j) - Z.max 0 (Z.of_nat (5 * j) - 100) + 1)
                = (5 * j + 1 - ts)%nat) by (rewrite Hts; lia).
  rewrite Hys.
  assert (Hlen : length (firstn (5 * j + 1 - ts) (skipn ts positions)) = (5 * j + 1 - ts)%nat)
    by (rewrite length_firstn, length_skipn; lia).
  split; [exact Hf|]. split; [rewrite Hlen, repeat_length; reflexivity|].
  split; [rewrite Hlen; lia|].
  rewrite (last_nth (firstn (5 * j + 1 - ts) (skipn ts positions)) 0).
  - rewrite Hlen, nth_firstn.
    replace (5 * j + 1 - ts - 1 <? 5 * j + 1 - ts)%nat with true
      by (symmetry; apply Nat.ltb_lt; lia).
    rewrite nth_skipn. f_equal. lia.
  - intro E. rewrite E in Hlen. simpl in Hlen. lia.
Qed.

End ExtraExact.

(** ** Witnesses of the further properties *)

Lemma simulate_particle_times_exit_witness :
  simulate_particle 20 (mk_particle 0.1%float 0.3%float 1%float)
    (HarmonicPotential 1%float 0%float) 1%float 0.1%float = Finished run_float /\
  fltb (nth 9 (tr_times (snd run_float)) f0) 1%float = true /\
  fltb (last (tr_times (snd run_float)) f0) 1%float = false.
Proof.
  assert (E : simulate_particle 20 (mk_particle 0.1%float 0.3%float 1%float)
                (HarmonicPotential 1%float 0%float) 1%float 0.1%float = Finished run_float)
    by (vm_compute; reflexivity).
  assert (L : (S 9 < length (tr_times (snd run_float)))%nat)
    by (apply Nat.ltb_lt; vm_compute; reflexivity).
  split; [exact E|].
  rewrite (surjective_pairing run_float) in E.
  destruct (simulate_particle_times_exit _ _ _ _ _ _ _ E) as [T1 T2].
  split; [exact (T1 9%nat L)|exact T2].
Defined.


Lemma simulate_particle_final_acceleration_witness :
  simulate_particle 20 (mk_particle 0.1%float 0.3%float 1%float)
    (HarmonicPotential 1%float 0%float) 1%float 0.1%float = Finished run_float /\
  ((length (tr_times (snd run_float)) = 1%nat /\
    fst run_float = mk_particle 0.1%float 0.3%float 1%float) \/
   acceleration (fst run_float) =
     fdiv (potential_force (HarmonicPotential 1%float 0%float) (position (fst run_float))) 1%float).
Proof.
  assert (E : simulate_particle 20 (mk_particle 0.1%float 0.3%float 1%float)
                (HarmonicPotential 1%float 0%float) 1%float 0.1%float = Finished run_float)
    by (vm_compute; reflexivity).
  split; [exact E|].
  rewrite (surjective_pairing run_float) in E.
  exact (simulate_particle_final_acceleration _ _ _ _ _ _ _ E).
Defined.

Lemma box_force_is_minus_derivative_witness :
  (0 <= 2)%R /\
  derivable_pt_lim (potential_call (mk_BoxPotential 2%R 0%R 1%R)) 1%R
    (- potential_force (mk_BoxPotential 2%R 0%R 1%R) 1%R)%R.
Proof.
  split; [lra|]. apply (box_force_is_minus_derivative 2 0 1 1). lra.
Defined.

Lemma box_negative_width_kink_witness :
  (-2 < 0)%R /\ (1000 <> 0)%R /\
  potential_force (mk_BoxPotential (-2)%R 0%R 1000%R) 0%R = 0%R /\
  forall l, ~ derivable_pt_lim (potential_call (mk_BoxPotential (-2)%R 0%R 1000%R)) 0%R l.
Proof.
  split; [lra|]. split; [lra|].
  apply (box_negative_width_kink (-2) 0 1000); lra.
Defined.

Lemma simulate_particle_mirror_witness :
  pot_centered (HarmonicPotential 1%R 0%R) 0%R /\
  simulate_particle 3 (reflect_particle 0%R (mk_particle 1%R (1/2)%R 1%R))
    (HarmonicPotential 1%R 0%R) 1%R (1/2)%R =
  Finished (reflect_particle 0%R (fst run_harmonic), reflect_trajectory 0%R (snd run_harmonic)).
Proof.
  assert (C : pot_centered (HarmonicPotential 1%R 0%R) 0%R) by (simpl; reflexivity).
  assert (E : simulate_particle 3 (mk_particle 1%R (1/2)%R 1%R)
                (HarmonicPotential 1%R 0%R) 1%R (1/2)%R = Finished run_harmonic)
    by (unfold run_harmonic, finished_or; R_run; reflexivity).
  split; [exact C|].
  rewrite (simulate_particle_mirror 3 (mk_particle 1%R (1/2)%R 1%R)
             (HarmonicPotential 1%R 0%R) 1%R (1/2)%R 0%R C), E.
  rewrite (surjective_pairing run_harmonic). reflexivity.
Defined.

Lemma loop_body_reversible_witness :
  loop_body (HarmonicPotential 1%R 0%R) (1/2)%R rev_s0 = inr rev_s1 /\
  position (particle rev_s2) = position (particle rev_s1) /\
  velocity (particle rev_s2) = (- velocity (particle rev_s1))%R /\
  mass (particle rev_s2) = mass (particle rev_s0) /\
  exists s3, loop_body (HarmonicPotential 1%R 0%R) (1/2)%R rev_s2 = inr s3 /\
    position (particle s3) = position (particle rev_s0) /\
    velocity (particle s3) = (- velocity (particle rev_s0))%R.
Proof.
  assert (B : loop_body (HarmonicPotential 1%R 0%R) (1/2)%R rev_s0 = inr rev_s1)
    by (unfold rev_s1, rev_s0; R_run; reflexivity).
  assert (P : position (particle rev_s2) = position (particle rev_s1)) by reflexivity.
  assert (V : velocity (particle rev_s2) = (- velocity (particle rev_s1))%R) by reflexivity.
  assert (M : mass (particle rev_s2) = mass (particle rev_s0)) by reflexivity.
  split; [exact B|]. split; [exact P|]. split; [exact V|]. split; [exact M|].
  exact (loop_body_reversible _ _ _ _ _ B P V M).
Defined.

Lemma simulate_particle_times_exact_witness :
  simulate_particle 3 (mk_particle 1%R (1/2)%R 1%R)
    (HarmonicPotential 1%R 0%R) 1%R (1/2)%R = Finished run_harmonic /\
  (2 < length (tr_times (snd run_harmonic)))%nat /\
  nth 2 (tr_times (snd run_harmonic)) 0%R = (INR 2 * (1/2))%R.
Proof.
  assert (E : simulate_particle 3 (mk_particle 1%R (1/2)%R 1%R)
                (HarmonicPotential 1%R 0%R) 1%R (1/2)%R = Finished run_harmonic)
    by (unfold run_harmonic, finished_or; R_run; reflexivity).
  assert (L : (2 < length (tr_times (snd run_harmonic)))%nat)
    by (unfold run_harmonic, finished_or; R_run; simpl; lia).
  split; [exact E|]. split; [exact L|].
  rewrite (surjective_pairing run_harmonic) in E.
  exact (simulate_particle_times_exact _ _ _ _ _ _ _ E 2%nat L).
Defined.

Lemma simulate_particle_at_rest_witness :
  potential_force (HarmonicPotential 1%R 0%R) 0%R = 0%R /\
  simulate_particle 3 (mk_particle 0%R 0%R 1%R)
    (HarmonicPotential 1%R 0%R) 1%R (1/2)%R = Finished run_rest /\
  (2 < length (tr_times (snd run_rest)))%nat /\
  position (fst run_rest) = 0%R /\ velocity (fst run_rest) = 0%R /\
  nth 2 (tr_positions (snd run_rest)) 0%R = 0%R /\
  nth 2 (tr_velocities (snd run_rest)) 0%R = 0%R /\
  nth 2 (total (energies (snd run_rest))) 0%R = nth 0 (total (energies (snd run_rest))) 0%R.
Proof.
  assert (F : potential_force (HarmonicPotential 1%R 0%R) 0%R = 0%R)
    by (cbv -[Rplus Rminus Rmult Rdiv Ropp IZR]; ring).
  assert (E : simulate_particle 3 (mk_particle 0%R 0%R 1%R)
                (HarmonicPotential 1%R 0%R) 1%R (1/2)%R = Finished run_rest)
    by (unfold run_rest, finished_or; R_run; reflexivity).
  assert (L : (2 < length (tr_times (snd run_rest)))%nat)
    by (unfold run_rest, finished_or; R_run; simpl; lia).
  split; [exact F|]. split; [exact E|]. split; [exact L|].
  rewrite (surjective_pairing run_rest) in E.
  destruct (simulate_particle_at_rest 3 (mk_particle 0%R 0%R 1%R) _ _ _ _ _ F eq_refl E) as (P & V & H).
  split; [exact P|]. split; [exact V|]. exact (H 2%nat L).
Defined.

Lemma simulate_particle_energies_nonneg_witness :
  (0 <= 1)%R /\ pot_nonneg (HarmonicPotential 1%R 0%R) /\
  simulate_particle 3 (mk_particle 1%R (1/2)%R 1%R)
    (HarmonicPotential 1%R 0%R) 1%R (1/2)%R = Finished run_harmonic /\
  (2 < length (tr_times (snd run_harmonic)))%nat /\
  (0 <= nth 2 (kinetic_e (energies (snd run_harmonic))) 0 /\
   0 <= nth 2 (potential_e (energies (snd run_harmonic))) 0 /\
   0 <= nth 2 (total (energies (snd run_harmonic))) 0)%R.
Proof.
  assert (N : pot_nonneg (HarmonicPotential 1%R 0%R)) by (simpl; lra).
  assert (E : simulate_particle 3 (mk_particle 1%R (1/2)%R 1%R)
                (HarmonicPotential 1%R 0%R) 1%R (1/2)%R = Finished run_harmonic)
    by (unfold run_harmonic, finished_or; R_run; reflexivity).
  assert (L : (2 < length (tr_times (snd run_harmonic)))%nat)
    by (unfold run_harmonic, finished_or; R_run; simpl; lia).
  split; [lra|]. split; [exact N|]. split; [exact E|]. split; [exact L|].
  rewrite (surjective_pairing run_harmonic) in E.
  exact (simulate_particle_energies_nonneg 3 (mk_particle 1%R (1/2)%R 1%R) _ _ _ _ _
           ltac:(simpl; lra) N E 2%nat L).
Defined.

Lemma animate_trail_witness :
  length [0; 1; 2; 3; 4; 5; 6]%R = length [0; 1; 2; 3; 4; 5; 6]%R /\
  In 5%nat (frames (length [0; 1; 2; 3; 4; 5; 6]%R)) /\
  let (xs, ys) := trail_data [0; 1; 2; 3; 4; 5; 6]%R 5 in
  (5 < length [0; 1; 2; 3; 4; 5; 6]%R)%nat /\ length xs = length ys /\
  (1 <= length xs <= 101)%nat /\ last xs 0%R = nth 5 [0; 1; 2; 3; 4; 5; 6]%R 0%R.
Proof.
  assert (I : In 5%nat (frames (length [0; 1; 2; 3; 4; 5; 6]%R)))
    by (simpl; auto).
  split; [reflexivity|]. split; [exact I|].
  exact (animate_trail [0; 1; 2; 3; 4; 5; 6]%R [0; 1; 2; 3; 4; 5; 6]%R 5 eq_refl I).
Defined.
